(** * LiteRAG.js retrieval core: a shallow embedding in Rocq

    Strings are JavaScript strings seen as sequences of code units, modelled
    as [list ascii]; JavaScript numbers used as integers (lengths, indices,
    chunk sizes, timestamps) are modelled as [Z]; relevance scores are
    modelled as rationals [Q] (floating-point rounding is not modelled). *)

From Stdlib Require Import Ascii String ZArith Lia Bool QArith Lqa List Sorting.Sorted Sorting.Permutation.
From Stdlib Require DecimalString DecimalZ.
Import ListNotations.
Open Scope Z_scope.
Set Warnings "-register-all".

Definition str := list ascii.

(** Literal strings are written as Rocq string literals and converted. *)
Definition S_ (s : string) : str := list_ascii_of_string s.

(** ** String primitives (String.prototype behaviour) *)

Definition len (s : str) : Z := Z.of_nat (length s).

(** truthiness of a string: [if (s)] *)
Definition nonempty (s : str) : bool :=
  match s with [] => false | _ => true end.

Fixpoint prefixb (p s : str) : bool :=
  match p, s with
  | [], _ => true
  | c :: p', d :: s' => Ascii.eqb c d && prefixb p' s'
  | _ :: _, [] => false
  end.

(** [s.includes(sub)] *)
Fixpoint includes (s sub : str) : bool :=
  prefixb sub s ||
  match s with
  | [] => false
  | _ :: s' => includes s' sub
  end.

(** [s.slice(start, end)]: negative positions count from the end,
    positions are clipped to [0, length]. *)
Definition js_pos (l p : Z) : Z :=
  if p <? 0 then Z.max (l + p) 0 else Z.min p l.

Definition js_slice (s : str) (start end_ : Z) : str :=
  let l := len s in
  let a := js_pos l start in
  let b := js_pos l end_ in
  if a <? b then firstn (Z.to_nat (b - a)) (skipn (Z.to_nat a) s) else [].

(** [s.slice(start)] *)
Definition js_slice_from (s : str) (start : Z) : str :=
  js_slice s start (len s).

(** [s.split(sep)] for a non-empty separator.  [skip] counts the characters of
    a separator occurrence still to be consumed; [cur] is the piece being
    built.  Occurrences are found left to right without overlap. *)
Fixpoint splitAux (sep s cur : str) (skip : nat) : list str :=
  match s with
  | [] => [cur]
  | c :: s' =>
      match skip with
      | S k => splitAux sep s' cur k
      | O =>
          if prefixb sep s then cur :: splitAux sep s' [] (pred (length sep))
          else splitAux sep s' (cur ++ [c]) O
      end
  end.

Definition js_split (s sep : str) : list str := splitAux sep s [] O.

(** JavaScript white space and line terminators within the modelled code
    units: TAB, LF, VT, FF, CR, SPACE and NBSP. *)
Definition is_ws (c : ascii) : bool :=
  let n := nat_of_ascii c in
  (Nat.eqb n 9 || Nat.eqb n 10 || Nat.eqb n 11 || Nat.eqb n 12 ||
   Nat.eqb n 13 || Nat.eqb n 32 || Nat.eqb n 160)%bool.

Fixpoint trim_start (s : str) : str :=
  match s with
  | [] => []
  | c :: s' => if is_ws c then trim_start s' else s
  end.

(** [s.trim()] *)
Definition trim (s : str) : str := rev (trim_start (rev (trim_start s))).

(** ** src/src/ingestion/splitters.ts : FixedSizeTextSplitter *)
Module Fixed.

Record FixedSizeTextSplitter := {
  chunkSize : Z;
  chunkOverlap : Z
}.

(** The [while (start < text.length)] loop, one iteration per unit of fuel;
    [None] means the loop was still running when the fuel ran out. *)
Fixpoint splitLoop (fuel : nat) (self : FixedSizeTextSplitter) (text : str)
    (start : Z) (chunks : list str) : option (list str) :=
  match fuel with
  | O => None
  | S fuel' =>
      if start <? len text then
        let end_ := Z.min (start + chunkSize self) (len text) in
        splitLoop fuel' self text (start + (chunkSize self - chunkOverlap self))
          (chunks ++ [js_slice text start end_])
      else Some chunks
  end.

(** [splitText] terminates with result [r] when some amount of fuel lets the
    loop finish. *)
Definition splitText_returns (self : FixedSizeTextSplitter) (text : str)
    (r : list str) : Prop :=
  exists fuel, splitLoop fuel self text 0 [] = Some r.

End Fixed.

(** ** src/src/ingestion/splitters.ts : RecursiveCharacterTextSplitter *)
Module Recursive.

Record RecursiveCharacterTextSplitter := {
  chunkSize : Z;
  chunkOverlap : Z;
  separators : list str
}.

(** [constructor(config)]: [config.separators || ['\n\n', '\n', ' ', '']] *)
Definition defaultSeparators : list str :=
  [[ascii_of_nat 10; ascii_of_nat 10]; [ascii_of_nat 10]; [" "%char]; []].

Definition create (chunkSize chunkOverlap : Z) (seps : option (list str))
    : RecursiveCharacterTextSplitter :=
  {| chunkSize := chunkSize; chunkOverlap := chunkOverlap;
     separators := match seps with Some l => l | None => defaultSeparators end |}.

(** The separator-selection loop of [recursiveSplit]: the first separator that
    is empty or occurs in the text, with the separators after it. *)
Fixpoint chooseLoop (text : str) (seps : list str) : option (str * list str) :=
  match seps with
  | [] => None
  | s :: rest =>
      if negb (nonempty s) then Some (s, [])
      else if includes text s then Some (s, rest)
      else chooseLoop text rest
  end.

Definition last_opt (seps : list str) : option str :=
  match rev seps with [] => None | s :: _ => Some s end.

(** [separator] starts as [separators[separators.length - 1]] (undefined, here
    [None], for an empty list) and [newSeparators] as [[]]. *)
Definition chooseSeparator (text : str) (seps : list str)
    : option str * list str :=
  match chooseLoop text seps with
  | Some (s, rest) => (Some s, rest)
  | None => (last_opt seps, [])
  end.

(** [separator || ''] *)
Definition sepString (separator : option str) : str :=
  match separator with Some s => s | None => [] end.

(** The [for (const split of splits)] merge loop; [rec] is the recursive call
    [this.recursiveSplit(_, newSeparators)]. *)
Fixpoint mergeSplits (chunkSize : Z) (separator : str) (newSeparators : list str)
    (rec : str -> list str) (splits : list str) (currentChunk : str)
    (finalChunks : list str) : list str :=
  match splits with
  | [] => if nonempty currentChunk then finalChunks ++ [currentChunk] else finalChunks
  | split :: rest =>
      let trimmedSplit := trim split in
      if negb (nonempty trimmedSplit) then
        mergeSplits chunkSize separator newSeparators rec rest currentChunk finalChunks
      else
        let testChunk :=
          if nonempty currentChunk then currentChunk ++ separator ++ trimmedSplit
          else trimmedSplit in
        if len testChunk <=? chunkSize then
          mergeSplits chunkSize separator newSeparators rec rest testChunk finalChunks
        else
          let finalChunks' :=
            if nonempty currentChunk then finalChunks ++ [currentChunk] else finalChunks in
          if (chunkSize <? len trimmedSplit) && (0 <? length newSeparators)%nat then
            mergeSplits chunkSize separator newSeparators rec rest []
              (finalChunks' ++ rec trimmedSplit)
          else
            mergeSplits chunkSize separator newSeparators rec rest trimmedSplit finalChunks'
  end.

(** [applyOverlap] *)
Fixpoint overlapFrom (chunkOverlap : Z) (prev : str) (chunks : list str) : list str :=
  match chunks with
  | [] => []
  | chunk :: rest =>
      (if 0 <? chunkOverlap then js_slice_from prev (- chunkOverlap) ++ [" "%char] ++ chunk
       else chunk) :: overlapFrom chunkOverlap chunk rest
  end.

Definition applyOverlap (self : RecursiveCharacterTextSplitter) (chunks : list str)
    : list str :=
  if (chunkOverlap self =? 0) || (length chunks <=? 1)%nat then chunks
  else match chunks with
       | [] => []
       | c0 :: rest => c0 :: overlapFrom (chunkOverlap self) c0 rest
       end.

(** [recursiveSplit]; the recursion is on a strict suffix of the separator
    list, so [S (length separators)] units of fuel always suffice
    ([Recursive_fuel_enough] below). *)
Fixpoint recursiveSplit (fuel : nat) (self : RecursiveCharacterTextSplitter)
    (text : str) (seps : list str) : list str :=
  match fuel with
  | O => []
  | S fuel' =>
      let '(separator, newSeparators) := chooseSeparator text seps in
      let sep := sepString separator in
      let splits := if nonempty sep then js_split text sep else [text] in
      applyOverlap self
        (mergeSplits (chunkSize self) sep newSeparators
           (fun t => recursiveSplit fuel' self t newSeparators) splits [] [])
  end.

Definition splitText (self : RecursiveCharacterTextSplitter) (text : str) : list str :=
  recursiveSplit (S (length (separators self))) self text (separators self).

(** The separators the selection loop can reach: those before the first
    empty one (the loop stops at an empty separator). *)
Fixpoint applicable (seps : list str) : list str :=
  match seps with
  | [] => []
  | s :: rest => if nonempty s then s :: applicable rest else []
  end.

End Recursive.

(** ** src/src/core/cache.ts : InMemoryCache *)

Definition str_eqb (a b : str) : bool :=
  if list_eq_dec Ascii.ascii_dec a b then true else false.

Module Cache.
Section InMemoryCache.
Variable T : Type.

(** [{ value: T; expiry?: number }] *)
Record entry := { value : T; expiry : option Z }.

(** The JavaScript [Map] behind the cache, as its entries in insertion
    order. *)
Definition store := list (str * entry).

Fixpoint map_get (m : store) (key : str) : option entry :=
  match m with
  | [] => None
  | (k, e) :: m' => if str_eqb k key then Some e else map_get m' key
  end.

(** [Map.prototype.set]: an existing key keeps its position. *)
Fixpoint map_set (m : store) (key : str) (e : entry) : store :=
  match m with
  | [] => [(key, e)]
  | (k, e') :: m' => if str_eqb k key then (key, e) :: m' else (k, e') :: map_set m' key e
  end.

Definition map_delete (m : store) (key : str) : store :=
  filter (fun p => negb (str_eqb (fst p) key)) m.

(** truthiness of [item.expiry] (a number; [undefined] is [None]) *)
Definition expiry_truthy (x : option Z) : bool :=
  match x with Some e => negb (e =? 0) | None => false end.

(** [get(key)] at time [now = Date.now()]: the result and the new map. *)
Definition get (m : store) (key : str) (now : Z) : option T * store :=
  match map_get m key with
  | None => (None, m)
  | Some item =>
      if expiry_truthy (expiry item) &&
         (match expiry item with Some e => e <? now | None => false end)
      then (None, map_delete m key)
      else (Some (value item), m)
  end.

(** [set(key, value, ttl?)] at time [now]; [ttl] is [None] when omitted and
    [ttl ? now + ttl * 1000 : undefined] decides the expiry. *)
Definition set (m : store) (key : str) (v : T) (ttl : option Z) (now : Z) : store :=
  let expiry := match ttl with
                | Some t => if t =? 0 then None else Some (now + t * 1000)
                | None => None
                end in
  map_set m key {| value := v; expiry := expiry |}.

Definition delete (m : store) (key : str) : store := map_delete m key.

Definition clear (m : store) : store := [].

Definition size (m : store) : nat := length m.

End InMemoryCache.
End Cache.

(** ** src/src/core/types.ts : MetadataFilter

    A [Record<string, X>] is modelled by the list that [Object.entries]
    returns for it; an absent optional property is [None]. *)
Module Filter.

Inductive scalar := SStr (s : str) | SNum (n : Z) | SBool (b : bool).

Inductive MetadataFilter := mkFilter {
  equals : option (list (str * scalar));
  and_ : option (list MetadataFilter);
  or_ : option (list MetadataFilter);
  not_ : option MetadataFilter;
  greaterThan : option (list (str * Z));
  lessThan : option (list (str * Z));
  greaterThanOrEqual : option (list (str * Z));
  lessThanOrEqual : option (list (str * Z));
  in_ : option (list (str * list scalar))
}.

Definition emptyFilter : MetadataFilter :=
  mkFilter None None None None None None None None None.

Inductive RangeOp := Gt | Lt | Gte | Lte.

(** [if (filter.and && filter.and.length > 0)] *)
Definition nonEmptyList {A} (l : option (list A)) : bool :=
  match l with Some (_ :: _) => true | _ => false end.

(** [q.must = q.must || []; q.must.push(...items)] when the guard holds *)
Definition pushAll {A} (guard : bool) (acc : option (list A)) (items : list A)
    : option (list A) :=
  if guard then Some (match acc with Some l => l | None => [] end ++ items) else acc.

Definition isSome {A} (o : option A) : bool :=
  match o with Some _ => true | None => false end.

Definition entries {A} (o : option (list A)) : list A :=
  match o with Some l => l | None => [] end.

End Filter.

(** ** src/src/vector-store/filters/qdrant-filter.ts : toQdrantFilter *)
Module Qdrant.
Import Filter.

(** An element of a [must]/[should]/[must_not] list: a [QdrantCondition]
    ([{key, match: {value}}] or [{key, range: {op: bound}}]) or a nested
    [QdrantFilter]. *)
Inductive QItem :=
  | QMatch (key : str) (value : scalar)
  | QRange (key : str) (op : RangeOp) (bound : Z)
  | QFilter (must should must_not : option (list QItem)).

Record QdrantFilter := mkQdrant {
  must : option (list QItem);
  should : option (list QItem);
  must_not : option (list QItem)
}.

Definition asItem (f : QdrantFilter) : QItem :=
  QFilter (must f) (should f) (must_not f).

(** one [in] entry: [values.map(value => ({key, match: {value}}))], then a
    single condition or [{ should: conditions }] *)
Definition inClause (kv : str * list scalar) : QItem :=
  let '(key, values) := kv in
  let conditions := map (fun value => QMatch key value) values in
  if (length conditions =? 1)%nat then hd (QMatch key (SBool false)) conditions
  else QFilter None (Some conditions) None.

Definition rangeClauses (op : RangeOp) (o : option (list (str * Z))) : list QItem :=
  map (fun '(key, value) => QRange key op value) (entries o).

Fixpoint toQdrantFilter (filter : MetadataFilter) : QdrantFilter :=
  let '(mkFilter eqs ands ors nt gts lts gtes ltes ins) := filter in
  let m0 := pushAll (isSome eqs) None
              (map (fun '(key, value) => QMatch key value) (entries eqs)) in
  let m1 := pushAll (isSome gts) m0 (rangeClauses Gt gts) in
  let m2 := pushAll (isSome lts) m1 (rangeClauses Lt lts) in
  let m3 := pushAll (isSome gtes) m2
              (rangeClauses Gte gtes) in
  let m4 := pushAll (isSome ltes) m3
              (rangeClauses Lte ltes) in
  let m5 := pushAll (isSome ins) m4 (map inClause (entries ins)) in
  let m6 := pushAll (nonEmptyList ands) m5
              (match ands with
               | Some l => map (fun sub => asItem (toQdrantFilter sub)) l
               | None => [] end) in
  let sh := pushAll (nonEmptyList ors) None
              (match ors with
               | Some l => map (fun sub => asItem (toQdrantFilter sub)) l
               | None => [] end) in
  let mn := match nt with
            | Some sub => Some [asItem (toQdrantFilter sub)]
            | None => None
            end in
  {| must := m6; should := sh; must_not := mn |}.

End Qdrant.

(** ** src/unnamed/part_003 (the OpenSearch filter module) : toOpenSearchFilter *)
Module OpenSearch.
Import Filter.

(** [OpenSearchQuery]: a [bool] query or a [term]/[range]/[terms] clause. *)
Inductive OSQuery :=
  | OSBool (must should must_not : option (list OSQuery))
           (minimum_should_match : option Z)
  | OSTerm (field : str) (value : scalar)
  | OSRange (field : str) (op : RangeOp) (bound : Z)
  | OSTerms (field : str) (values : list scalar).

(** [`metadata.${key}`] *)
Definition metadataField (key : str) : str := S_ "metadata." ++ key.

Definition rangeClauses (op : RangeOp) (o : option (list (str * Z))) : list OSQuery :=
  map (fun '(key, value) => OSRange (metadataField key) op value) (entries o).

Fixpoint toOpenSearchFilter (filter : MetadataFilter) : OSQuery :=
  let '(mkFilter eqs ands ors nt gts lts gtes ltes ins) := filter in
  let m0 := pushAll (isSome eqs) None
              (map (fun '(key, value) => OSTerm (metadataField key) value)
                 (entries eqs)) in
  let m1 := pushAll (isSome gts) m0 (rangeClauses Gt gts) in
  let m2 := pushAll (isSome lts) m1 (rangeClauses Lt lts) in
  let m3 := pushAll (isSome gtes) m2
              (rangeClauses Gte gtes) in
  let m4 := pushAll (isSome ltes) m3
              (rangeClauses Lte ltes) in
  let m5 := pushAll (isSome ins) m4
              (map (fun '(key, values) => OSTerms (metadataField key) values)
                 (entries ins)) in
  let m6 := pushAll (nonEmptyList ands) m5
              (match ands with Some l => map toOpenSearchFilter l | None => [] end) in
  let sh := pushAll (nonEmptyList ors) None
              (match ors with Some l => map toOpenSearchFilter l | None => [] end) in
  let msm := if nonEmptyList ors then Some 1 else None in
  let mn := match nt with
            | Some sub => Some [toOpenSearchFilter sub]
            | None => None
            end in
  OSBool m6 sh mn msm.

End OpenSearch.

(** ** src/unnamed/part_006 (the reranker module) : SearchResult and sorting *)
Module Rerank.

Record Document := {
  id : option str;
  content : str;
  metadata : list (str * Filter.scalar)
}.

Record SearchResult := {
  document : Document;
  score : Q
}.

(** [results.sort((a, b) => b.score - a.score)]: [Array.prototype.sort] is
    stable, so the result is the stable sort by descending score, computed
    here by insertion ([x] goes before [y] only when the comparator is
    negative, i.e. [y.score < x.score]). *)
Fixpoint insertDesc (x : SearchResult) (l : list SearchResult) : list SearchResult :=
  match l with
  | [] => [x]
  | y :: l' => if Qle_bool (score x) (score y) then y :: insertDesc x l' else x :: l
  end.

Definition sortDesc (l : list SearchResult) : list SearchResult :=
  fold_left (fun acc x => insertDesc x acc) l [].

(** [{ ...result, score: s }] *)
Definition withScore (r : SearchResult) (s : Q) : SearchResult :=
  {| document := document r; score := s |}.

End Rerank.

(** ** RRFReranker *)
Module RRF.
Import Rerank.

(** [constructor(k: number = 60)] *)
Definition create (k : option Q) : Q :=
  match k with Some k => k | None => 60 end.

(** [results.map((result, idx) => ({...result, score: 1 / (this.k + idx + 1)}))] *)
Fixpoint rescore (k : Q) (idx : nat) (results : list SearchResult) : list SearchResult :=
  match results with
  | [] => []
  | r :: rest =>
      withScore r (1 / (k + inject_Z (Z.of_nat idx) + 1)) :: rescore k (S idx) rest
  end.

Definition rerank (k : Q) (query : str) (results : list SearchResult) : list SearchResult :=
  sortDesc (rescore k 0 results).

End RRF.

(** ** src/unnamed/part_006 : KeywordReranker *)

Module Keyword.
Import Rerank.

(** [String.prototype.toLowerCase] on the modelled code units (0 to 255):
    A-Z and the Latin-1 capitals U+00C0..U+00D6, U+00D8..U+00DE move up by 32. *)
Definition toLowerChar (c : ascii) : ascii :=
  let n := nat_of_ascii c in
  if ((Nat.leb 65 n && Nat.leb n 90) || (Nat.leb 192 n && Nat.leb n 214) ||
      (Nat.leb 216 n && Nat.leb n 222))%bool
  then ascii_of_nat (n + 32)%nat else c.

Definition toLowerCase (s : str) : str := map toLowerChar s.

(** [text.split(/\s+/)]: every maximal run of white space separates two
    pieces; a leading or trailing run gives an empty first or last piece. *)
Fixpoint splitWsAux (s cur : str) (inRun : bool) : list str :=
  match s with
  | [] => [cur]
  | c :: s' =>
      if is_ws c then
        if inRun then splitWsAux s' [] true else cur :: splitWsAux s' [] true
      else splitWsAux s' (cur ++ [c]) false
  end.

Definition splitWs (s : str) : list str := splitWsAux s [] false.

Definition stopWords : list str :=
  map S_ ["the"; "a"; "an"; "and"; "or"; "but"; "in"; "on"; "at"; "to"; "for";
          "of"; "with"; "by"; "from"; "is"; "are"; "was"; "were"; "be"; "been";
          "being"]%string.

(** [text.split(/\s+/).filter(w => w.length > 2 && !stopWords.has(w)).slice(0, 10)] *)
Definition extractKeywords (text : str) : list str :=
  firstn 10 (filter (fun w => (Nat.ltb 2 (length w) && negb (existsb (str_eqb w) stopWords))%bool)
                    (splitWs text)).

(** [new RegExp(keyword, 'g')], on the fragment of pattern syntax made of
    ordinary characters, [.] and the quantifiers [*], [+], [?] (with the
    lazy suffix [?]).  A quantifier with nothing before it, or after a
    quantifier other than as one lazy [?], is the early error "Nothing to
    repeat" of the RegExp grammar.  Any of [^ $ \ ( ) [ ] { } |] stops the
    model ([RxUnmodelled]), as does a well-formed quantified pattern, whose
    matching is not modelled. *)
Inductive rx_atom := RChar (c : ascii) | RDot.

Inductive rx_result := RxOk (atoms : list rx_atom) | RxSyntaxError | RxUnmodelled.

Inductive rx_prev := PStart | PAtom | PQuant | PLazy.

Definition is_special (c : ascii) : bool :=
  existsb (Ascii.eqb c) (list_ascii_of_string "^$\()[]{}|").

Definition is_quantifier (c : ascii) : bool :=
  existsb (Ascii.eqb c) (list_ascii_of_string "*+?").

Fixpoint parseRx (p : str) (prev : rx_prev) (quantified : bool) (acc : list rx_atom) : rx_result :=
  match p with
  | [] => if quantified then RxUnmodelled else RxOk (rev acc)
  | c :: p' =>
      if is_special c then RxUnmodelled
      else if is_quantifier c then
        match prev with
        | PAtom => parseRx p' PQuant true acc
        | PQuant => if Ascii.eqb c "?"%char then parseRx p' PLazy true acc else RxSyntaxError
        | PStart | PLazy => RxSyntaxError
        end
      else parseRx p' PAtom quantified
             ((if Ascii.eqb c "."%char then RDot else RChar c) :: acc)
  end.

Definition compile (pattern : str) : rx_result := parseRx pattern PStart false [].

(** [.] matches every code unit but the line terminators LF and CR. *)
Definition atom_matches (a : rx_atom) (c : ascii) : bool :=
  match a with
  | RChar d => Ascii.eqb c d
  | RDot => negb (Nat.eqb (nat_of_ascii c) 10 || Nat.eqb (nat_of_ascii c) 13)%bool
  end.

Fixpoint matchAt (atoms : list rx_atom) (s : str) : bool :=
  match atoms, s with
  | [], _ => true
  | a :: atoms', c :: s' => (atom_matches a c && matchAt atoms' s')%bool
  | _ :: _, [] => false
  end.

(** [(content.match(re) || []).length] for a global [re]: matches are
    searched left to right, the next search starting where the previous
    match ended ([skip] counts the code units still covered by it). *)
Fixpoint countMatchesAux (atoms : list rx_atom) (s : str) (skip : nat) : nat :=
  match s with
  | [] => match skip, atoms with O, [] => 1 | _, _ => 0 end
  | _ :: s' =>
      match skip with
      | S k => countMatchesAux atoms s' k
      | O => if matchAt atoms s then S (countMatchesAux atoms s' (pred (length atoms)))
             else countMatchesAux atoms s' O
      end
  end.

Definition countMatches (atoms : list rx_atom) (s : str) : nat := countMatchesAux atoms s O.

(** The promise returned by [rerank]: fulfilled with a list, rejected by a
    thrown [SyntaxError], or outside the modelled fragment. *)
Inductive outcome (A : Type) := Ok (a : A) | Throws | Unmodelled.
Arguments Ok {A} a.
Arguments Throws {A}.
Arguments Unmodelled {A}.

(** The [for (const keyword of queryKeywords)] loop of one result. *)
Fixpoint keywordScore (content : str) (kws : list str) : outcome nat :=
  match kws with
  | [] => Ok O
  | kw :: rest =>
      match compile kw with
      | RxSyntaxError => Throws
      | RxUnmodelled => Unmodelled
      | RxOk atoms =>
          match keywordScore content rest with
          | Ok n => Ok (countMatches atoms content + n)%nat
          | Throws => Throws
          | Unmodelled => Unmodelled
          end
      end
  end.

(** [results.map(...)]: [boostedScore = result.score * (1 + keywordScore * 0.1)]. *)
Fixpoint rescoreAll (kws : list str) (results : list SearchResult) : outcome (list SearchResult) :=
  match results with
  | [] => Ok []
  | r :: rest =>
      match keywordScore (toLowerCase (content (document r))) kws with
      | Throws => Throws
      | Unmodelled => Unmodelled
      | Ok n =>
          match rescoreAll kws rest with
          | Ok l => Ok (withScore r (score r * (1 + inject_Z (Z.of_nat n) * (1#10)))%Q :: l)
          | Throws => Throws
          | Unmodelled => Unmodelled
          end
      end
  end.

Definition rerank (query : str) (results : list SearchResult) : outcome (list SearchResult) :=
  match rescoreAll (extractKeywords (toLowerCase query)) results with
  | Ok l => Ok (sortDesc l)
  | Throws => Throws
  | Unmodelled => Unmodelled
  end.

End Keyword.

(** Modelled from the spec: the keyword reranker as the specification words
    it, counting (non-overlapping) substring occurrences of each keyword in
    the lower-cased content; the keywords are extracted as the code does. *)
Module KeywordSpec.
Import Rerank.

Fixpoint occurrencesAux (kw s : str) (skip : nat) : nat :=
  match s with
  | [] => O
  | _ :: s' =>
      match skip with
      | S k => occurrencesAux kw s' k
      | O => if prefixb kw s then S (occurrencesAux kw s' (pred (length kw)))
             else occurrencesAux kw s' O
      end
  end.

Definition occurrences (kw s : str) : nat := occurrencesAux kw s O.

Definition rerank (query : str) (results : list SearchResult) : list SearchResult :=
  let kws := Keyword.extractKeywords (Keyword.toLowerCase query) in
  sortDesc (map (fun r =>
    let content := Keyword.toLowerCase (Rerank.content (document r)) in
    let n := fold_left (fun acc kw => (acc + occurrences kw content)%nat) kws O in
    withScore r (score r * (1 + inject_Z (Z.of_nat n) * (1#10)))%Q) results).

End KeywordSpec.

(** ** src/src/api/server.ts : the cache key of the /query handler *)

Module Server.

(** A JSON value as it arrives in [req.body] (integers for numbers; an object
    keeps its members in insertion order, which [JSON.stringify] follows). *)
Inductive json :=
| JNull
| JBool (b : bool)
| JNum (n : Z)
| JStr (s : str)
| JArr (vs : list json)
| JObj (ms : list (str * json)).

(** [String(n)] for an integer [n] (of magnitude below 10^21): its decimal
    digits, after a minus sign when negative. *)
Definition num (n : Z) : str :=
  list_ascii_of_string (DecimalString.NilEmpty.string_of_int (Z.to_int n)).

Definition hexDigit (n : nat) : ascii :=
  if Nat.ltb n 10 then ascii_of_nat (48 + n) else ascii_of_nat (87 + n).

(** The escapes of [JSON.stringify] inside a string literal: a double quote
    or a backslash gets a backslash before it; backspace, form feed, line
    feed, carriage return and tab get their one-letter escapes; the other
    control characters get [\u00xx] with lower-case hex digits. *)
Definition escapeChar (c : ascii) : str :=
  let n := nat_of_ascii c in
  let bs := "\"%char in
  if Nat.eqb n 34 then [bs; ascii_of_nat 34]
  else if Nat.eqb n 92 then [bs; bs]
  else if Nat.eqb n 8 then [bs; "b"%char]
  else if Nat.eqb n 12 then [bs; "f"%char]
  else if Nat.eqb n 10 then [bs; "n"%char]
  else if Nat.eqb n 13 then [bs; "r"%char]
  else if Nat.eqb n 9 then [bs; "t"%char]
  else if Nat.ltb n 32 then
    [bs; "u"%char; "0"%char; "0"%char; hexDigit (Nat.div n 16); hexDigit (Nat.modulo n 16)]
  else [c].

Definition quote (s : str) : str :=
  ascii_of_nat 34 :: flat_map escapeChar s ++ [ascii_of_nat 34].

Definition joinComma (xs : list str) : str :=
  match xs with
  | [] => []
  | x :: rest => x ++ flat_map (fun y => ","%char :: y) rest
  end.

Fixpoint stringify (v : json) : str :=
  match v with
  | JNull => S_ "null"
  | JBool true => S_ "true"
  | JBool false => S_ "false"
  | JNum n => num n
  | JStr s => quote s
  | JArr vs => "["%char :: joinComma (map stringify vs) ++ ["]"%char]
  | JObj ms =>
      "{"%char :: joinComma (map (fun '(k, v) => quote k ++ ":"%char :: stringify v) ms)
        ++ ["}"%char]
  end.

(** JavaScript falsiness of a JSON value: [null], [false], [0] and [""]. *)
Definition falsy (v : json) : bool :=
  match v with
  | JNull => true
  | JBool b => negb b
  | JNum n => Z.eqb n 0
  | JStr s => match s with [] => true | _ => false end
  | JArr _ | JObj _ => false
  end.

(** [const topK = k || 5], for an integer [k] or none given. *)
Definition topK (k : option Z) : Z :=
  match k with
  | Some n => if Z.eqb n 0 then 5 else n
  | None => 5
  end.

(** [filter || {}] *)
Definition filterOrEmpty (filter : option json) : json :=
  match filter with
  | Some v => if falsy v then JObj [] else v
  | None => JObj []
  end.

(** [`query:${query}:${topK}:${JSON.stringify(filter || {})}`] for a string [query]. *)
Definition cacheKey (query : str) (k : option Z) (filter : option json) : str :=
  S_ "query:" ++ query ++ ":"%char :: num (topK k) ++ ":"%char :: stringify (filterOrEmpty filter).

(** The member names of [MetadataFilter] (src/src/core/types.ts). *)
Definition filterFields : list str :=
  map S_ ["equals"; "and"; "or"; "not"; "greaterThan"; "lessThan";
          "greaterThanOrEqual"; "lessThanOrEqual"; "in"]%string.

Definition isFilterObject (v : json) : bool :=
  match v with
  | JObj ms => forallb (fun m => existsb (str_eqb (fst m)) filterFields) ms
  | _ => false
  end.

End Server.

(** ** src/src/core/embedding.ts : MockEmbeddingModel *)
Module Embedding.

(** ToInt32: the 32-bit two's complement value of an integer. *)
Definition toInt32 (z : Z) : Z := (z + 2 ^ 31) mod 2 ^ 32 - 2 ^ 31.

(** One iteration of the loop of [hashString]:
    [hash = (hash << 5) - hash + char; hash = hash & hash]. *)
Definition hashStep (hash : Z) (c : ascii) : Z :=
  let char := Z.of_nat (nat_of_ascii c) in
  let hash' := toInt32 (Z.shiftl (toInt32 hash) 5) - hash + char in
  Z.land (toInt32 hash') (toInt32 hash').

(** [hashString(str)]: the loop from [hash = 0], then [Math.abs(hash)]. *)
Definition hashString (s : str) : Z := Z.abs (fold_left hashStep s 0).

Section Embed.
(** [generateRandomVector(seed)] (floating-point arithmetic, not modelled). *)
Variable V : Type.
Variable generateRandomVector : Z -> V.

(** [embedText(text)] *)
Definition embedText (text : str) : V := generateRandomVector (hashString text).

End Embed.
End Embedding.

(** ** src/src/ingestion/pipeline.ts : IngestionPipeline *)
Module Pipeline.
Import Server.

(** A [Metadata] object as its own enumerable properties, in insertion order. *)
Definition obj := list (str * json).

(** [o[k] = v] on a copy: an existing property keeps its position. *)
Fixpoint objSet (o : obj) (k : str) (v : json) : obj :=
  match o with
  | [] => [(k, v)]
  | (k', v') :: o' => if str_eqb k' k then (k, v) :: o' else (k', v') :: objSet o' k v
  end.

Fixpoint objGet (o : obj) (k : str) : option json :=
  match o with
  | [] => None
  | (k', v) :: o' => if str_eqb k' k then Some v else objGet o' k
  end.

(** [{ ...metadata }]: spreading [undefined] gives [{}]. *)
Definition spread (metadata : option obj) : obj :=
  match metadata with Some m => m | None => [] end.

(** [Chunk] (src/src/core/types.ts) *)
Record Chunk := {
  id : str;
  content : str;
  chunkIndex : Z;
  sourceDocumentId : str;
  metadata : obj
}.

(** [chunks.map((chunkText, idx) => ({...}))], [idx] counting from [start]. *)
Fixpoint chunkDocuments (documentId : str) (metadata : option obj) (total : Z)
    (idx : Z) (chunks : list str) : list Chunk :=
  match chunks with
  | [] => []
  | chunkText :: rest =>
      {| id := documentId ++ S_ "_chunk_" ++ num idx;
         content := chunkText;
         chunkIndex := idx;
         sourceDocumentId := documentId;
         metadata := objSet (objSet (spread metadata) (S_ "chunkIndex") (JNum idx))
                       (S_ "totalChunks") (JNum total) |}
      :: chunkDocuments documentId metadata total (idx + 1) rest
  end.

(** [ingestDocument(content, metadata)] with [documentId = uuidv4()]: the
    array handed to [vectorStore.addDocuments]. *)
Definition ingestDocument (splitText : str -> list str) (documentId : str)
    (content : str) (metadata : option obj) : list Chunk :=
  let chunks := splitText content in
  chunkDocuments documentId metadata (Z.of_nat (length chunks)) 0 chunks.

(** [ingestDocuments(documents)]: one [ingestDocument] per document in turn,
    the [k]-th call drawing the identifier [uuid k]; the concatenation of the
    arrays handed to [addDocuments]. *)
Fixpoint ingestDocumentsFrom (splitText : str -> list str) (uuid : nat -> str) (k : nat)
    (documents : list (str * option obj)) : list Chunk :=
  match documents with
  | [] => []
  | (content, metadata) :: rest =>
      ingestDocument splitText (uuid k) content metadata ++
      ingestDocumentsFrom splitText uuid (S k) rest
  end.

Definition ingestDocuments (splitText : str -> list str) (uuid : nat -> str)
    (documents : list (str * option obj)) : list Chunk :=
  ingestDocumentsFrom splitText uuid O documents.

(** [ingestFromFile(filePath, metadata)] once the file has been read as
    [content]: [ingestDocument(content, { ...metadata, source: filePath })]. *)
Definition ingestFromFile (splitText : str -> list str) (documentId : str)
    (filePath content : str) (metadata : option obj) : list Chunk :=
  ingestDocument splitText documentId content
    (Some (objSet (spread metadata) (S_ "source") (JStr filePath))).

End Pipeline.

(** ** src/src/api/server.ts : the /query handler *)
Module Query.
Import Server.

(** [req.body] of a /query request; [useCache] is [None] when absent (the
    default [true] then applies). *)
Record QueryBody := {
  query : str;
  k : option Z;
  rerank : bool;
  filter : option json;
  useCache : option json
}.

(** The [response] object: the query and, per result, its content, metadata
    and score. *)
Record QueryResponse := {
  rquery : str;
  rresults : list (str * list (str * Filter.scalar) * Q)
}.

(** The HTTP outcome: [400] with an error, [500], or [200] with the response
    body, [cached] telling whether [cached: true] was added to it. *)
Inductive outcome :=
  | BadRequest
  | ServerError
  | Success (body : QueryResponse) (cached : bool).

(** The handler's collaborators: [retriever.retrieve] and [reranker.rerank]
    ([None] for a rejected promise), the optional cache and [cacheTTL]. *)
Record Config := {
  retrieve : str -> Z -> option json -> option (list Rerank.SearchResult);
  reranker : option (str -> list Rerank.SearchResult -> option (list Rerank.SearchResult));
  cacheTTL : option Z
}.

(** [const { useCache = true } = req.body], then [if (useCache && ...)] *)
Definition useCacheTruthy (u : option json) : bool :=
  match u with None => true | Some v => negb (falsy v) end.

Definition formatResults (results : list Rerank.SearchResult)
    : list (str * list (str * Filter.scalar) * Q) :=
  map (fun r => (Rerank.content (Rerank.document r), Rerank.metadata (Rerank.document r),
                 Rerank.score r)) results.

(** One request, [tGet] and [tSet] being [Date.now()] at the cache read and
    at the cache write: the outcome and the cache afterwards. *)
Definition handleQuery (cfg : Config) (cache : option (Cache.store QueryResponse))
    (body : QueryBody) (tGet tSet : Z) : outcome * option (Cache.store QueryResponse) :=
  if negb (nonempty (query body)) then (BadRequest, cache) else
  let topK := topK (k body) in
  let key := cacheKey (query body) (k body) (filter body) in
  let useC := useCacheTruthy (useCache body) in
  let '(cached, cache1) :=
    match cache with
    | Some m => if useC then let '(v, m') := Cache.get QueryResponse m key tGet in (v, Some m')
                else (None, cache)
    | None => (None, cache)
    end in
  match cached with
  | Some c => (Success c true, cache1)
  | None =>
      match retrieve cfg (query body) topK (filter body) with
      | None => (ServerError, cache1)
      | Some results =>
          let reranked :=
            match reranker cfg with
            | Some rr => if rerank body then rr (query body) results else Some results
            | None => Some results
            end in
          match reranked with
          | None => (ServerError, cache1)
          | Some results' =>
              let response := {| rquery := query body; rresults := formatResults results' |} in
              let cache2 :=
                match cache1 with
                | Some m => if useC then Some (Cache.set QueryResponse m key response
                                                 (cacheTTL cfg) tSet)
                            else cache1
                | None => None
                end in
              (Success response false, cache2)
          end
      end
  end.

End Query.

(** ** src/unnamed/part_006 : Retriever (the one with a filter option) *)

Module Retriever.

(** [this.topK = options.topK || 5] *)
Definition create (topK : option Z) : Z :=
  match topK with Some n => if Z.eqb n 0 then 5 else n | None => 5 end.

(** [retrieve(query, options)]: [k = options?.topK || this.topK], then
    [vectorStore.similaritySearch(query, k, filter)] ([None] for a rejected
    promise). *)
Definition retrieve (similaritySearch : str -> Z -> option Server.json -> option (list Rerank.SearchResult))
    (self : Z) (query : str) (topK : option Z) (filter : option Server.json)
    : option (list Rerank.SearchResult) :=
  let k := match topK with Some n => if Z.eqb n 0 then self else n | None => self end in
  similaritySearch query k filter.

End Retriever.

(** The /query handler on a server whose retriever is [retriever] over the
    vector store's [similaritySearch]: [this.retriever.retrieve(query,
    { topK, filter })]. *)
Definition serverConfig (similaritySearch : str -> Z -> option Server.json -> option (list Rerank.SearchResult))
    (retriever : Z)
    (reranker : option (str -> list Rerank.SearchResult -> option (list Rerank.SearchResult)))
    (cacheTTL : option Z) : Query.Config :=
  {| Query.retrieve := fun q topK f => Retriever.retrieve similaritySearch retriever q (Some topK) f;
     Query.reranker := reranker;
     Query.cacheTTL := cacheTTL |}.

(** ** Example inputs *)

Definition rrf_doc (c : string) : Rerank.Document :=
  {| Rerank.id := None; Rerank.content := S_ c; Rerank.metadata := [] |}.

Definition rrf_input : list Rerank.SearchResult :=
  [ {| Rerank.document := rrf_doc "first"; Rerank.score := 0.2%Q |};
    {| Rerank.document := rrf_doc "second"; Rerank.score := 0.9%Q |} ].

Definition kw_result (c : string) : Rerank.SearchResult :=
  {| Rerank.document := {| Rerank.id := None; Rerank.content := S_ c; Rerank.metadata := [] |};
     Rerank.score := 1%Q |}.

Definition keyFilter : Server.json :=
  Server.JObj [(S_ "equals", Server.JObj [(S_ "category", Server.JStr (S_ "tech"))])].

(* ================================================================= *)
(** * Proofs *)

(** ** FixedSizeTextSplitter: termination of the window loop *)

Lemma Fixed_splitLoop_stuck :
  forall self text fuel start chunks,
    Fixed.chunkSize self - Fixed.chunkOverlap self <= 0 ->
    start <= 0 -> 0 < len text ->
    Fixed.splitLoop fuel self text start chunks = None.
Proof.
  intros self text fuel; induction fuel as [|fuel IH]; intros start chunks Hs Hst Hl;
    simpl; [reflexivity|].
  destruct (Z.ltb_spec start (len text)); [|lia].
  apply IH; lia.
Qed.

Lemma Fixed_splitLoop_finishes :
  forall self text fuel start chunks,
    1 <= Fixed.chunkSize self - Fixed.chunkOverlap self ->
    Z.max 0 (len text - start) < Z.of_nat fuel ->
    exists r, Fixed.splitLoop fuel self text start chunks = Some r.
Proof.
  intros self text fuel; induction fuel as [|fuel IH]; intros start chunks Hs Hf.
  { simpl in Hf; lia. }
  rewrite Nat2Z.inj_succ in Hf; cbn [Fixed.splitLoop].
  destruct (Z.ltb_spec start (len text)).
  - apply IH; lia.
  - eauto.
Qed.

Example Recursive_test_atomic :
  Recursive.splitText (Recursive.create 10 0 (Some [S_ " "; S_ ""]))
    (S_ "thisisalongwordthatcannotbesplit")
  = [S_ "thisisalongwordthatcannotbesplit"].
Proof. vm_compute. reflexivity. Qed.

Example Recursive_test_words :
  Recursive.splitText (Recursive.create 12 0 None) (S_ "one two three four five")
  = [S_ "one two"; S_ "three four"; S_ "five"].
Proof. vm_compute. reflexivity. Qed.

(** ** String lemmas *)

Definition substr (t s : str) : Prop := exists a b, s = a ++ t ++ b.

Lemma substr_refl : forall s, substr s s.
Proof. intros s; exists [], []; rewrite app_nil_r; reflexivity. Qed.

Lemma substr_trans : forall t u s, substr t u -> substr u s -> substr t s.
Proof.
  intros t u s [a [b Hu]] [c [d Hs]]; subst.
  exists (c ++ a), (b ++ d); rewrite !app_assoc; reflexivity.
Qed.

Lemma prefixb_spec : forall p s, prefixb p s = true <-> exists b, s = p ++ b.
Proof.
  induction p as [|c p IH]; intros s; simpl.
  - split; eauto.
  - destruct s as [|d s].
    + split; [discriminate|intros [b Hb]; discriminate].
    + rewrite andb_true_iff, Ascii.eqb_eq, IH; split.
      * intros [-> [b ->]]; eauto.
      * intros [b Hb]; injection Hb as -> ->; eauto.
Qed.

Lemma includes_spec : forall s sub,
  includes s sub = true <-> exists a b, s = a ++ sub ++ b.
Proof.
  induction s as [|c s IH]; intros sub; simpl; rewrite orb_true_iff, prefixb_spec.
  - split.
    + intros [[b Hb] | H]; [exists [], b; exact Hb | discriminate].
    + intros [a [b Hab]]; left; exists []; destruct a, sub; simpl in *;
        try discriminate; reflexivity.
  - rewrite IH; split.
    + intros [[b Hb] | [a [b Hab]]].
      * exists [], b; exact Hb.
      * exists (c :: a), b; rewrite Hab; reflexivity.
    + intros [a [b Hab]]; destruct a as [|d a]; simpl in Hab.
      * left; exists b; exact Hab.
      * injection Hab as -> Hs; right; eauto.
Qed.

Lemma includes_substr : forall t s x,
  substr t s -> includes t x = true -> includes s x = true.
Proof.
  intros t s x [a [b ->]] Ht; apply includes_spec in Ht as [c [d ->]].
  apply includes_spec; exists (a ++ c), (d ++ b); rewrite !app_assoc; reflexivity.
Qed.

Lemma excludes_substr : forall t s x,
  substr t s -> includes s x = false -> includes t x = false.
Proof.
  intros t s x Hts Hs; destruct (includes t x) eqn:E; [|reflexivity].
  rewrite (includes_substr t s x Hts E) in Hs; discriminate.
Qed.

Lemma splitAux_pieces : forall sep orig s cur skip a,
  sep <> [] ->
  ((0 < skip)%nat -> cur = []) ->
  (forall t1 t2, cur = t1 ++ t2 -> t2 <> [] -> prefixb sep (t2 ++ s) = false) ->
  orig = a ++ cur ++ s ->
  forall piece, In piece (splitAux sep s cur skip) ->
    includes piece sep = false /\ substr piece orig.
Proof.
  intros sep orig s; induction s as [|c s IH];
    intros cur skip a Hsep Hskip Hocc Horig piece Hin; simpl in Hin.
  - destruct Hin as [-> | []]; split.
    + destruct (includes piece sep) eqn:E; [|reflexivity].
      apply includes_spec in E as [t1 [b Ht]].
      specialize (Hocc t1 (sep ++ b)); rewrite app_nil_r in Hocc.
      rewrite (proj2 (prefixb_spec sep (sep ++ b)) (ex_intro _ b eq_refl)) in Hocc.
      exfalso; assert (true = false) by (apply Hocc; [exact Ht | destruct sep; [contradiction | discriminate]]); discriminate.
    + exists a, []; rewrite Horig, !app_nil_r; reflexivity.
  - destruct skip as [|k].
    + destruct (prefixb sep (c :: s)) eqn:Ep.
      * destruct Hin as [-> | Hin].
        -- split.
           ++ destruct (includes piece sep) eqn:E; [|reflexivity].
              apply includes_spec in E as [t1 [b Ht]].
              specialize (Hocc t1 (sep ++ b) Ht).
              rewrite <- app_assoc, (proj2 (prefixb_spec sep (sep ++ b ++ c :: s))
                (ex_intro _ (b ++ c :: s) eq_refl)) in Hocc.
              exfalso; assert (true = false) by (apply Hocc; destruct sep; [contradiction | discriminate]); discriminate.
           ++ exists a, (c :: s); exact Horig.
        -- apply (IH [] (pred (length sep)) (a ++ cur ++ [c])); auto.
           ++ intros t1 t2 Ht Hne; destruct t1, t2; try discriminate; contradiction.
           ++ rewrite Horig, <- !app_assoc; reflexivity.
      * apply (IH (cur ++ [c]) O a); auto.
        -- intros H; lia.
        -- intros t1 t2 Ht Hne.
           destruct (exists_last Hne) as [t2' [d ->]].
           rewrite app_assoc in Ht; apply app_inj_tail in Ht as [Hcur ->].
           rewrite <- app_assoc; simpl.
           destruct t2' as [|e t2'].
           ++ exact Ep.
           ++ apply (Hocc t1); [exact Hcur | discriminate].
        -- rewrite Horig, <- !app_assoc; reflexivity.
    + rewrite (Hskip ltac:(lia)) in *.
      apply (IH [] k (a ++ [c])); auto.
      * intros t1 t2 Ht Hne; destruct t1, t2; try discriminate; contradiction.
      * rewrite Horig, <- app_assoc; reflexivity.
Qed.

Lemma js_split_pieces : forall s sep piece,
  sep <> [] -> In piece (js_split s sep) ->
  includes piece sep = false /\ substr piece s.
Proof.
  intros s sep piece Hsep Hin.
  apply (splitAux_pieces sep s s [] O [] Hsep).
  - intros _; reflexivity.
  - intros t1 t2 Ht Hne; destruct t1, t2; try discriminate; contradiction.
  - reflexivity.
  - exact Hin.
Qed.

Lemma trim_start_suffix : forall s, exists a, s = a ++ trim_start s.
Proof.
  induction s as [|c s [a Ha]]; simpl; [exists []; reflexivity|].
  destruct (is_ws c); [exists (c :: a); rewrite Ha at 1; reflexivity | exists []; reflexivity].
Qed.

Lemma trim_substr : forall s, substr (trim s) s.
Proof.
  intros s; unfold trim.
  destruct (trim_start_suffix s) as [a Ha].
  destruct (trim_start_suffix (rev (trim_start s))) as [b Hb].
  exists a, (rev b); rewrite Ha at 1; f_equal.
  set (u := trim_start s) in *; set (v := trim_start (rev u)) in *.
  rewrite <- rev_app_distr, <- Hb, rev_involutive; reflexivity.
Qed.

(** ** RecursiveCharacterTextSplitter: separators, merge loop, fuel *)

Lemma applicable_In : forall seps x, In x (Recursive.applicable seps) -> In x seps.
Proof.
  induction seps as [|s seps IH]; intros x Hx; simpl in *; [exact Hx|].
  destruct (nonempty s); simpl in Hx; [destruct Hx; auto | contradiction].
Qed.

Lemma applicable_nonempty : forall seps x,
  In x (Recursive.applicable seps) -> nonempty x = true.
Proof.
  induction seps as [|s seps IH]; intros x Hx; simpl in *; [contradiction|].
  destruct (nonempty s) eqn:E; simpl in Hx; [destruct Hx as [<- | Hx]; auto | contradiction].
Qed.

Lemma chooseLoop_none : forall text seps,
  Recursive.chooseLoop text seps = None -> forall x, In x seps -> includes text x = false.
Proof.
  induction seps as [|s seps IH]; intros H x Hx; simpl in *; [contradiction|].
  destruct (nonempty s); simpl in H; [|discriminate].
  destruct (includes text s) eqn:E; [discriminate|].
  destruct Hx as [<- | Hx]; auto.
Qed.

Lemma chooseLoop_some : forall text seps s rest,
  Recursive.chooseLoop text seps = Some (s, rest) ->
  (forall x, In x (Recursive.applicable seps) ->
     includes text x = false \/ x = s \/ In x (Recursive.applicable rest)) /\
  (nonempty s = false -> rest = []) /\
  (length rest < length seps)%nat.
Proof.
  induction seps as [|s0 seps IH]; intros s rest H; simpl in *; [discriminate|].
  destruct (nonempty s0) eqn:E0; simpl in H.
  - destruct (includes text s0) eqn:E1.
    + injection H as <- <-; split; [|split; [congruence | simpl; lia]].
      intros x Hx; simpl in Hx; destruct Hx as [<- | Hx]; auto.
    + destruct (IH s rest H) as [H1 [H2 H3]]; split; [|split; [exact H2 | lia]].
      intros x Hx; simpl in Hx; destruct Hx as [<- | Hx]; auto.
  - injection H as <- <-; split; [intros x Hx; contradiction|].
    split; [intros _; reflexivity | simpl; lia].
Qed.

Lemma chooseSeparator_shorter : forall text seps,
  snd (Recursive.chooseSeparator text seps) <> [] ->
  (length (snd (Recursive.chooseSeparator text seps)) < length seps)%nat.
Proof.
  intros text seps; unfold Recursive.chooseSeparator.
  destruct (Recursive.chooseLoop text seps) as [[s rest]|] eqn:E; simpl.
  - intros _; apply (chooseLoop_some text seps s rest E).
  - intros H; contradiction.
Qed.

(** Every piece the merge loop receives is a substring of the text and, for
    each reachable separator, either lacks it or leaves it to the deeper
    separators. *)
Lemma splits_pieces : forall text seps piece,
  let sep := Recursive.sepString (fst (Recursive.chooseSeparator text seps)) in
  In piece (if nonempty sep then js_split text sep else [text]) ->
  substr piece text /\
  forall x, In x (Recursive.applicable seps) ->
    includes piece x = false \/
    In x (Recursive.applicable (snd (Recursive.chooseSeparator text seps))).
Proof.
  intros text seps piece; unfold Recursive.chooseSeparator.
  destruct (Recursive.chooseLoop text seps) as [[s rest]|] eqn:E; simpl.
  - destruct (chooseLoop_some text seps s rest E) as [Hcov [Hempty _]].
    destruct (nonempty s) eqn:Es.
    + intros Hin.
      assert (Hs : s <> []) by (intros ->; discriminate).
      destruct (js_split_pieces text s piece Hs Hin) as [Hno Hsub].
      split; [exact Hsub|]; intros x Hx.
      destruct (Hcov x Hx) as [Hx' | [-> | Hx']]; auto.
      left; eapply excludes_substr; eauto.
    + intros [<- | []]; split; [apply substr_refl|]; intros x Hx.
      rewrite (Hempty eq_refl) in *.
      destruct (Hcov x Hx) as [Hx' | [-> | Hx']]; auto.
      rewrite (applicable_nonempty seps s Hx) in Es; discriminate.
  - intros Hin.
    assert (Hsub : substr piece text).
    { destruct (nonempty _) eqn:Es.
      - apply (js_split_pieces text (Recursive.sepString (Recursive.last_opt seps)) piece);
          [intros Hn; rewrite Hn in Es; discriminate | exact Hin].
      - destruct Hin as [<- | []]; apply substr_refl. }
    split; [exact Hsub|]; intros x Hx; left.
    eapply excludes_substr; [exact Hsub|].
    apply (chooseLoop_none text seps E), applicable_In; exact Hx.
Qed.

Lemma mergeSplits_inv : forall (P : str -> Prop) cs sep newSeps rec splits cur fin,
  (forall c, len c <= cs -> P c) ->
  (forall piece, In piece splits -> nonempty (trim piece) = true ->
     (newSeps = [] -> P (trim piece)) /\
     (cs < len (trim piece) -> newSeps <> [] ->
        forall c, In c (rec (trim piece)) -> P c)) ->
  (nonempty cur = true -> P cur) ->
  Forall P fin ->
  Forall P (Recursive.mergeSplits cs sep newSeps rec splits cur fin).
Proof.
  intros P cs sep newSeps rec splits; induction splits as [|piece splits IH];
    intros cur fin Hsmall Hpieces Hcur Hfin; simpl.
  - destruct (nonempty cur) eqn:E; auto.
    apply Forall_app; split; auto.
  - assert (Hp := Hpieces piece (or_introl eq_refl)).
    assert (Hrest : forall p, In p splits -> nonempty (trim p) = true ->
              (newSeps = [] -> P (trim p)) /\
              (cs < len (trim p) -> newSeps <> [] -> forall c, In c (rec (trim p)) -> P c))
      by (intros p Hin; apply Hpieces; right; exact Hin).
    destruct (nonempty (trim piece)) eqn:Et; simpl; [|apply IH; auto].
    destruct (Hp eq_refl) as [Hleaf Hrec].
    set (test := if nonempty cur then cur ++ sep ++ trim piece else trim piece).
    destruct (Z.leb_spec (len test) cs) as [Hle | Hgt].
    + apply IH; auto.
    + assert (Hfin' : Forall P (if nonempty cur then fin ++ [cur] else fin)).
      { destruct (nonempty cur); auto; apply Forall_app; split; auto. }
      destruct (Z.ltb_spec cs (len (trim piece))) as [Hlt | Hge];
        destruct (Nat.ltb_spec 0 (length newSeps)) as [Hn | Hn]; simpl.
      * apply IH; auto; [discriminate|].
        apply Forall_app; split; auto.
        apply Forall_forall; apply Hrec; [exact Hlt|].
        intros E; rewrite E in Hn; simpl in Hn; lia.
      * apply IH; auto; intros _; apply Hleaf.
        destruct newSeps; [reflexivity | simpl in Hn; lia].
      * apply IH; auto.
      * apply IH; auto.
Qed.

Lemma mergeSplits_ext : forall cs sep newSeps rec1 rec2 splits cur fin,
  (newSeps <> [] -> forall t, rec1 t = rec2 t) ->
  Recursive.mergeSplits cs sep newSeps rec1 splits cur fin =
  Recursive.mergeSplits cs sep newSeps rec2 splits cur fin.
Proof.
  intros cs sep newSeps rec1 rec2 splits; induction splits as [|p splits IH];
    intros cur fin Hext; simpl; [reflexivity|].
  destruct (nonempty (trim p)); simpl; [|apply IH; exact Hext].
  destruct (_ <=? cs); [apply IH; exact Hext|].
  destruct (Z.ltb cs (len (trim p))); simpl; [|apply IH; exact Hext].
  destruct (Nat.ltb_spec 0 (length newSeps)) as [Hn | Hn]; [|apply IH; exact Hext].
  rewrite Hext; [apply IH; exact Hext|].
  intros E; rewrite E in Hn; simpl in Hn; lia.
Qed.

(** Fuel adequacy: any fuel above the number of separators gives the same
    result, so [splitText] computes the unbounded recursion of the source. *)
Lemma Recursive_fuel_enough : forall f1 f2 self text seps,
  (length seps < f1)%nat -> (length seps < f2)%nat ->
  Recursive.recursiveSplit f1 self text seps = Recursive.recursiveSplit f2 self text seps.
Proof.
  induction f1 as [|f1 IH]; intros f2 self text seps H1 H2; [lia|].
  destruct f2 as [|f2]; [lia|]; simpl.
  assert (Hsh := chooseSeparator_shorter text seps).
  destruct (Recursive.chooseSeparator text seps) as [separator newSeps]; simpl in Hsh.
  f_equal; apply mergeSplits_ext; intros Hne t.
  apply IH; specialize (Hsh Hne); lia.
Qed.

Lemma Recursive_split_inv : forall fuel self text seps,
  Recursive.chunkOverlap self = 0 ->
  forall c, In c (Recursive.recursiveSplit fuel self text seps) ->
    len c <= Recursive.chunkSize self \/
    ((forall x, In x (Recursive.applicable seps) -> includes c x = false) /\
     substr c text).
Proof.
  induction fuel as [|fuel IH]; intros self text seps Hov c Hc; simpl in Hc; [contradiction|].
  assert (Hpieces := splits_pieces text seps).
  destruct (Recursive.chooseSeparator text seps) as [separator newSeps]; simpl in Hpieces.
  unfold Recursive.applyOverlap in Hc; rewrite Hov in Hc; simpl in Hc.
  revert c Hc; apply Forall_forall, mergeSplits_inv.
  - intros c Hle; left; exact Hle.
  - intros piece Hin _.
    destruct (Hpieces piece Hin) as [Hsub Hcov].
    assert (Htsub : substr (trim piece) text) by (eapply substr_trans; [apply trim_substr | exact Hsub]).
    split.
    + intros ->; right; split; [|exact Htsub].
      intros x Hx; destruct (Hcov x Hx) as [Hx' | []].
      eapply excludes_substr; [apply trim_substr | exact Hx'].
    + intros _ _ c Hc.
      destruct (IH self (trim piece) newSeps Hov c Hc) as [Hle | [Hno Hcs]]; [left; exact Hle|].
      right; split; [|eapply substr_trans; eauto].
      intros x Hx; destruct (Hcov x Hx) as [Hx' | Hx']; [|apply Hno; exact Hx'].
      eapply excludes_substr; [exact Hcs|].
      eapply excludes_substr; [apply trim_substr | exact Hx'].
  - intros H; discriminate.
  - constructor.
Qed.

(* ================================================================= *)
(** * Claims *)

(** ** C1 *)

(** C1 (counterexample): with [chunkSize = chunkOverlap = 1] (stride 0) on the
    non-empty text ["a"], [FixedSizeTextSplitter.splitText] raises no
    configuration error: its loop never finishes, for any amount of fuel. *)
Lemma Fixed_stride_zero_never_returns :
  ~ (exists r, Fixed.splitText_returns {| Fixed.chunkSize := 1; Fixed.chunkOverlap := 1 |}
                 (S_ "a") r).
Proof.
  intros [r [fuel Hf]].
  rewrite Fixed_splitLoop_stuck in Hf; [discriminate | simpl; lia | lia | reflexivity].
Qed.

(** C1 (amended): [FixedSizeTextSplitter.splitText] performs no configuration
    check.  When the stride [chunkSize - chunkOverlap] is [<= 0] and the text
    is non-empty the loop never finishes; when the stride is [>= 1] it
    finishes on every input. *)
Theorem Fixed_splitText_termination : forall self text,
  (Fixed.chunkSize self - Fixed.chunkOverlap self <= 0 -> 0 < len text ->
     forall r, ~ Fixed.splitText_returns self text r) /\
  (1 <= Fixed.chunkSize self - Fixed.chunkOverlap self ->
     exists r, Fixed.splitText_returns self text r).
Proof.
  intros self text; split.
  - intros Hs Hl r [fuel Hf].
    rewrite Fixed_splitLoop_stuck in Hf; [discriminate | exact Hs | lia | exact Hl].
  - intros Hs.
    destruct (Fixed_splitLoop_finishes self text (S (length text)) 0 [] Hs) as [r Hr].
    + unfold len; lia.
    + exists r, (S (length text)); exact Hr.
Qed.

Lemma Fixed_splitText_termination_witness :
  (exists r, Fixed.splitText_returns {| Fixed.chunkSize := 10; Fixed.chunkOverlap := 2 |}
               (repeat "a"%char 50) r) /\
  (forall r, ~ Fixed.splitText_returns {| Fixed.chunkSize := 3; Fixed.chunkOverlap := 5 |}
               (S_ "abc") r).
Proof.
  split.
  - apply (proj2 (Fixed_splitText_termination
                    {| Fixed.chunkSize := 10; Fixed.chunkOverlap := 2 |} (repeat "a"%char 50))).
    simpl; lia.
  - apply (proj1 (Fixed_splitText_termination
                    {| Fixed.chunkSize := 3; Fixed.chunkOverlap := 5 |} (S_ "abc"))).
    + simpl; lia.
    + vm_compute; reflexivity.
Defined.

(** ** C4 *)

(** C4: with [chunkOverlap = 0], every chunk returned by
    [RecursiveCharacterTextSplitter.splitText] has length at most [chunkSize],
    or else it is an atomic token: it contains none of the separators the
    splitter can use (the configured ones before the first empty separator)
    and it occurs unsplit, as one contiguous substring of the input text. *)
Theorem Recursive_chunks_bounded_or_atomic : forall cs seps text c,
  In c (Recursive.splitText (Recursive.create cs 0 seps) text) ->
  len c <= cs \/
  ((forall x, In x (Recursive.applicable
                     (Recursive.separators (Recursive.create cs 0 seps))) ->
              includes c x = false) /\
   substr c text).
Proof.
  intros cs seps text c Hc.
  exact (Recursive_split_inv _ (Recursive.create cs 0 seps) text _ eq_refl c Hc).
Qed.

Lemma Recursive_chunks_bounded_or_atomic_witness :
  let self := Recursive.create 10 0 (Some [S_ " "; S_ ""]) in
  let text := S_ "short thisisalongwordthatcannotbesplit" in
  let c := S_ "thisisalongwordthatcannotbesplit" in
  In c (Recursive.splitText self text) /\
  (len c <= 10 \/
   ((forall x, In x (Recursive.applicable (Recursive.separators self)) ->
               includes c x = false) /\ substr c text)).
Proof.
  intros self text c; split.
  - vm_compute; right; left; reflexivity.
  - apply (Recursive_chunks_bounded_or_atomic 10 (Some [S_ " "; S_ ""]) text c).
    vm_compute; right; left; reflexivity.
Defined.

(** ** InMemoryCache lemmas *)

Lemma str_eqb_spec : forall a b, str_eqb a b = true <-> a = b.
Proof.
  intros a b; unfold str_eqb; destruct (list_eq_dec Ascii.ascii_dec a b); split;
    congruence.
Qed.

Lemma str_eqb_refl : forall a, str_eqb a a = true.
Proof. intros a; apply str_eqb_spec; reflexivity. Qed.

Lemma filter_keep_all : forall (A : Type) (f : A -> bool) l,
  (forall x, In x l -> f x = true) -> filter f l = l.
Proof.
  intros A f l; induction l as [|x l IH]; intros H; simpl; [reflexivity|].
  rewrite (H x (or_introl eq_refl)), IH; [reflexivity|].
  intros y Hy; apply H; right; exact Hy.
Qed.

Section CacheLemmas.
Variable T : Type.

Lemma map_get_set_same : forall (m : Cache.store T) k e,
  Cache.map_get T (Cache.map_set T m k e) k = Some e.
Proof.
  induction m as [|[k' e'] m IH]; intros k e; simpl; [rewrite str_eqb_refl; reflexivity|].
  destruct (str_eqb k' k) eqn:E; simpl; [rewrite str_eqb_refl; reflexivity|].
  rewrite E; apply IH.
Qed.

Lemma map_get_delete_same : forall (m : Cache.store T) k,
  Cache.map_get T (Cache.map_delete T m k) k = None.
Proof.
  induction m as [|[k' e'] m IH]; intros k; simpl; [reflexivity|].
  destruct (str_eqb k' k) eqn:E; simpl; [apply IH|rewrite E; apply IH].
Qed.

Lemma map_set_keys : forall (m : Cache.store T) k e,
  NoDup (map fst m) ->
  NoDup (map fst (Cache.map_set T m k e)) /\
  (In k (map fst m) -> map fst (Cache.map_set T m k e) = map fst m) /\
  (~ In k (map fst m) -> map fst (Cache.map_set T m k e) = map fst m ++ [k]).
Proof.
  induction m as [|[k' e'] m IH]; intros k e Hnd; simpl.
  - split; [constructor; [intros []|constructor]|split; [intros []|reflexivity]].
  - inversion Hnd as [|? ? Hnin Hnd']; subst.
    destruct (str_eqb k' k) eqn:E.
    + apply str_eqb_spec in E; subst; simpl; repeat split; auto.
      intros Hn; exfalso; apply Hn; left; reflexivity.
    + assert (Hne : k' <> k) by (intros Heq; subst; rewrite str_eqb_refl in E; discriminate).
      destruct (IH k e Hnd') as [H1 [H2 H3]]; simpl; repeat split.
      * constructor; [|exact H1].
        destruct (in_dec (list_eq_dec Ascii.ascii_dec) k (map fst m)) as [Hk|Hk].
        -- rewrite (H2 Hk); exact Hnin.
        -- rewrite (H3 Hk); rewrite in_app_iff; intros [Hx | [Hx | []]]; auto.
      * intros [Hx | Hx]; [contradiction|]; rewrite (H2 Hx); reflexivity.
      * intros Hx; rewrite H3; [reflexivity|]; intros Hy; apply Hx; right; exact Hy.
Qed.

Lemma map_delete_length : forall (m : Cache.store T) k,
  NoDup (map fst m) -> In k (map fst m) ->
  length (Cache.map_delete T m k) = pred (length m).
Proof.
  induction m as [|[k' e'] m IH]; intros k Hnd Hin; simpl in *; [contradiction|].
  inversion Hnd as [|? ? Hnin Hnd']; subst.
  destruct (str_eqb k' k) eqn:E; simpl.
  - apply str_eqb_spec in E; subst.
    unfold Cache.map_delete; rewrite filter_keep_all; [reflexivity|].
    intros [k2 e2] Hx; simpl; destruct (str_eqb k2 k) eqn:E2; [|reflexivity].
    apply str_eqb_spec in E2; subst; exfalso; apply Hnin.
    apply (in_map fst _ _ Hx).
  - destruct Hin as [-> | Hin]; [rewrite str_eqb_refl in E; discriminate|].
    unfold Cache.map_delete in IH |- *; rewrite IH; auto.
    destruct m; simpl in *; [contradiction | reflexivity].
Qed.

End CacheLemmas.

(** ** C5 *)

(** C5: after [set(key, value, ttl)] at time [t0] (a non-negative
    [Date.now()], a positive [ttl]), [get(key)] returns [value] at every time
    up to the expiry [t0 + ttl * 1000]; at any later time it returns [null]
    and deletes the entry, so the map no longer has the key and [size()]
    drops by one.  After [set] with [ttl] omitted, [get(key)] returns [value]
    at every time. *)
Theorem Cache_get_set_expiry : forall (T : Type) (m : Cache.store T) key v ttl t0,
  NoDup (map fst m) -> 0 <= t0 -> 0 < ttl ->
  let m1 := Cache.set T m key v (Some ttl) t0 in
  (forall t, t <= t0 + ttl * 1000 -> Cache.get T m1 key t = (Some v, m1)) /\
  (forall t, t0 + ttl * 1000 < t ->
     fst (Cache.get T m1 key t) = None /\
     Cache.map_get T (snd (Cache.get T m1 key t)) key = None /\
     Cache.size T (snd (Cache.get T m1 key t)) = pred (Cache.size T m1)) /\
  (forall t1 t, fst (Cache.get T (Cache.set T m key v None t1) key t) = Some v).
Proof.
  intros T m key v ttl t0 Hnd Ht0 Httl m1.
  assert (Hm1 : m1 = Cache.map_set T m key
                       {| Cache.value := v; Cache.expiry := Some (t0 + ttl * 1000) |}).
  { unfold m1, Cache.set; destruct (Z.eqb_spec ttl 0); [lia | reflexivity]. }
  assert (Hget : Cache.map_get T m1 key =
                 Some {| Cache.value := v; Cache.expiry := Some (t0 + ttl * 1000) |})
    by (rewrite Hm1; apply map_get_set_same).
  assert (Htruthy : Cache.expiry_truthy (Some (t0 + ttl * 1000)) = true).
  { simpl; destruct (Z.eqb_spec (t0 + ttl * 1000) 0); [lia | reflexivity]. }
  split; [|split].
  - intros t Ht; unfold Cache.get; rewrite Hget; simpl.
    destruct (Z.ltb_spec (t0 + ttl * 1000) t); [lia|].
    rewrite andb_false_r; reflexivity.
  - intros t Ht; unfold Cache.get; rewrite Hget; cbn [Cache.expiry]; rewrite Htruthy.
    destruct (Z.ltb_spec (t0 + ttl * 1000) t); [|lia]; simpl.
    split; [reflexivity | split; [apply map_get_delete_same|]].
    unfold Cache.size; apply map_delete_length.
    + rewrite Hm1; apply map_set_keys; exact Hnd.
    + rewrite Hm1; destruct (map_set_keys T m key
        {| Cache.value := v; Cache.expiry := Some (t0 + ttl * 1000) |} Hnd) as [_ [H2 H3]].
      destruct (in_dec (list_eq_dec Ascii.ascii_dec) key (map fst m)) as [Hk | Hk].
      * rewrite (H2 Hk); exact Hk.
      * rewrite (H3 Hk); apply in_or_app; right; left; reflexivity.
  - intros t1 t; unfold Cache.get, Cache.set; rewrite map_get_set_same; reflexivity.
Qed.

Lemma Cache_get_set_expiry_witness :
  let m1 := Cache.set nat [] (S_ "k") 7%nat (Some 1) 1000 in
  NoDup (map fst ([] : Cache.store nat)) /\
  Cache.get nat m1 (S_ "k") 2000 = (Some 7%nat, m1) /\
  fst (Cache.get nat m1 (S_ "k") 2001) = None /\
  Cache.size nat (snd (Cache.get nat m1 (S_ "k") 2001)) = 0%nat.
Proof.
  intros m1.
  destruct (Cache_get_set_expiry nat [] (S_ "k") 7%nat 1 1000 (NoDup_nil _)
              ltac:(lia) ltac:(lia)) as [H1 [H2 _]].
  split; [constructor|split; [apply H1; lia|]].
  destruct (H2 2001 ltac:(lia)) as [H3 [_ H4]].
  split; [exact H3 | unfold m1; rewrite H4; reflexivity].
Defined.

(** ** C10 *)

(** C10: [set(key, value, 0)] stores no expiry ([0] is falsy), so [get(key)]
    at any later time returns [value] and leaves the map unchanged. *)
Theorem Cache_zero_ttl_never_expires : forall (T : Type) (m : Cache.store T) key v t0 t,
  Cache.get T (Cache.set T m key v (Some 0) t0) key t =
  (Some v, Cache.set T m key v (Some 0) t0).
Proof.
  intros T m key v t0 t; unfold Cache.get.
  replace (Cache.map_get T (Cache.set T m key v (Some 0) t0) key)
    with (Some {| Cache.value := v; Cache.expiry := None |})
    by (symmetry; apply map_get_set_same).
  reflexivity.
Qed.

(** ** Filter compiler lemmas *)

Lemma pushAll_mid : forall (A : Type) g (acc : option (list A)) items rest,
  exists pre post, Filter.pushAll g (Filter.pushAll true acc items) rest =
                   Some (pre ++ items ++ post).
Proof.
  intros A g acc items rest; unfold Filter.pushAll.
  exists (match acc with Some l => l | None => [] end).
  destruct g; [exists rest | exists []]; rewrite ?app_nil_r, ?app_assoc; reflexivity.
Qed.

Lemma inClause_shape : forall ents,
  Forall2 (fun (kv : str * list Filter.scalar) item =>
             (forall v, snd kv = [v] -> item = Qdrant.QMatch (fst kv) v) /\
             ((2 <= length (snd kv))%nat ->
                item = Qdrant.QFilter None
                         (Some (map (fun v => Qdrant.QMatch (fst kv) v) (snd kv))) None))
          ents (map Qdrant.inClause ents).
Proof.
  induction ents as [|[k vs] ents IH]; simpl; constructor; [|exact IH].
  simpl; destruct vs as [|v [|v2 vs]]; simpl; split.
  - intros v H; discriminate.
  - intros H; lia.
  - intros v' H; injection H as ->; reflexivity.
  - intros H; lia.
  - intros v' H; discriminate.
  - intros _; reflexivity.
Qed.

(** ** C6 *)

(** C6: the empty filter (no arm set) compiles, in the point-match dialect,
    to a filter with no [must], [should] or [must_not] list, and, in the
    boolean-query dialect, to [{ bool: {} }]: a [bool] query with no clause
    list and no [minimum_should_match]; both match every document. *)
Theorem Filter_empty_compiles_to_match_all :
  Qdrant.toQdrantFilter Filter.emptyFilter =
    {| Qdrant.must := None; Qdrant.should := None; Qdrant.must_not := None |} /\
  OpenSearch.toOpenSearchFilter Filter.emptyFilter =
    OpenSearch.OSBool None None None None.
Proof. split; reflexivity. Qed.

(** ** C7 *)

(** C7: in the point-match dialect each entry [key -> values] of the [in] arm
    becomes one element of the enclosing [must] list, in order: for exactly
    one value, the match clause [{key, match: {value}}]; for two or more
    values, a nested filter whose only list is [should], holding one match
    clause per value. *)
Theorem Qdrant_in_lowering : forall f ents,
  Filter.in_ f = Some ents ->
  exists pre mid post,
    Qdrant.must (Qdrant.toQdrantFilter f) = Some (pre ++ mid ++ post) /\
    Forall2 (fun (kv : str * list Filter.scalar) item =>
               (forall v, snd kv = [v] -> item = Qdrant.QMatch (fst kv) v) /\
               ((2 <= length (snd kv))%nat ->
                  item = Qdrant.QFilter None
                           (Some (map (fun v => Qdrant.QMatch (fst kv) v) (snd kv))) None))
            ents mid.
Proof.
  intros [eqs ands ors nt gts lts gtes ltes ins] ents Hin; simpl in Hin; subst ins.
  cbn [Qdrant.toQdrantFilter Qdrant.must Filter.isSome].
  match goal with
  | |- context [Filter.pushAll ?g (Filter.pushAll true ?acc ?items) ?rest] =>
      destruct (pushAll_mid _ g acc items rest) as [pre [post Hp]]; rewrite Hp
  end.
  exists pre, (map Qdrant.inClause ents), post; split; [reflexivity | apply inClause_shape].
Qed.

Lemma Qdrant_in_lowering_witness :
  let ents := [(S_ "tag", [Filter.SStr (S_ "a")]);
               (S_ "cat", [Filter.SStr (S_ "x"); Filter.SStr (S_ "y")])] in
  let f := {| Filter.equals := None; Filter.and_ := None; Filter.or_ := None;
              Filter.not_ := None; Filter.greaterThan := None; Filter.lessThan := None;
              Filter.greaterThanOrEqual := None; Filter.lessThanOrEqual := None;
              Filter.in_ := Some ents |} in
  Filter.in_ f = Some ents /\
  exists pre mid post,
    Qdrant.must (Qdrant.toQdrantFilter f) = Some (pre ++ mid ++ post) /\
    Forall2 (fun (kv : str * list Filter.scalar) item =>
               (forall v, snd kv = [v] -> item = Qdrant.QMatch (fst kv) v) /\
               ((2 <= length (snd kv))%nat ->
                  item = Qdrant.QFilter None
                           (Some (map (fun v => Qdrant.QMatch (fst kv) v) (snd kv))) None))
            ents mid.
Proof.
  intros ents f; split; [reflexivity|].
  exact (Qdrant_in_lowering f ents eq_refl).
Defined.

(** ** C8 *)

(** C8: for a non-empty [or] list of [n] children, the boolean-query dialect
    yields a [bool] query whose [should] list is the [n] children compiled
    recursively, with [minimum_should_match = 1]; the point-match dialect
    yields a filter whose [should] list is the [n] children compiled
    recursively. *)
Theorem Filter_or_compiles_to_should : forall f children,
  Filter.or_ f = Some children -> children <> [] ->
  (exists mu mn, OpenSearch.toOpenSearchFilter f =
     OpenSearch.OSBool mu (Some (map OpenSearch.toOpenSearchFilter children)) mn (Some 1)) /\
  Qdrant.should (Qdrant.toQdrantFilter f) =
    Some (map (fun c => Qdrant.asItem (Qdrant.toQdrantFilter c)) children).
Proof.
  intros [eqs ands ors nt gts lts gtes ltes ins] children Hor Hne; simpl in Hor; subst ors.
  destruct children as [|c children]; [contradiction|].
  split; [eexists _, _; reflexivity | reflexivity].
Qed.

Lemma Filter_or_compiles_to_should_witness :
  let eq1 := {| Filter.equals := Some [(S_ "category", Filter.SStr (S_ "tech"))];
                Filter.and_ := None; Filter.or_ := None; Filter.not_ := None;
                Filter.greaterThan := None; Filter.lessThan := None;
                Filter.greaterThanOrEqual := None; Filter.lessThanOrEqual := None;
                Filter.in_ := None |} in
  let eq2 := {| Filter.equals := Some [(S_ "category", Filter.SStr (S_ "literature"))];
                Filter.and_ := None; Filter.or_ := None; Filter.not_ := None;
                Filter.greaterThan := None; Filter.lessThan := None;
                Filter.greaterThanOrEqual := None; Filter.lessThanOrEqual := None;
                Filter.in_ := None |} in
  let f := {| Filter.equals := None; Filter.and_ := None; Filter.or_ := Some [eq1; eq2];
              Filter.not_ := None; Filter.greaterThan := None; Filter.lessThan := None;
              Filter.greaterThanOrEqual := None; Filter.lessThanOrEqual := None;
              Filter.in_ := None |} in
  [eq1; eq2] <> [] /\
  (exists mu mn, OpenSearch.toOpenSearchFilter f =
     OpenSearch.OSBool mu (Some (map OpenSearch.toOpenSearchFilter [eq1; eq2])) mn (Some 1)) /\
  Qdrant.should (Qdrant.toQdrantFilter f) =
    Some (map (fun c => Qdrant.asItem (Qdrant.toQdrantFilter c)) [eq1; eq2]).
Proof.
  intros eq1 eq2 f; split; [discriminate|].
  exact (Filter_or_compiles_to_should f [eq1; eq2] eq_refl ltac:(discriminate)).
Defined.

(** ** Reranker lemmas *)

Section RerankLemmas.
Local Open Scope Q_scope.

Definition scoreDesc (a b : Rerank.SearchResult) : Prop :=
  Rerank.score b < Rerank.score a.

Lemma insertDesc_last : forall x l,
  (forall y, In y l -> scoreDesc y x) -> Rerank.insertDesc x l = l ++ [x].
Proof.
  intros x l; induction l as [|y l IH]; intros H; simpl; [reflexivity|].
  assert (Hy : Qle_bool (Rerank.score x) (Rerank.score y) = true).
  { apply Qle_bool_iff, Qlt_le_weak, H; left; reflexivity. }
  rewrite Hy, IH; [reflexivity|]; intros z Hz; apply H; right; exact Hz.
Qed.

Lemma StronglySorted_app_rel : forall (R : Rerank.SearchResult -> Rerank.SearchResult -> Prop) a b,
  StronglySorted R (a ++ b) -> forall y z, In y a -> In z b -> R y z.
Proof.
  intros R a; induction a as [|w a IH]; intros b H y z Hy Hz; [contradiction|].
  simpl in H; apply StronglySorted_inv in H as [H1 H2].
  destruct Hy as [<- | Hy].
  - rewrite Forall_forall in H2; apply H2, in_or_app; right; exact Hz.
  - eapply IH; eauto.
Qed.

Lemma sortDesc_fold_sorted : forall l acc,
  StronglySorted scoreDesc (acc ++ l) ->
  fold_left (fun acc x => Rerank.insertDesc x acc) l acc = acc ++ l.
Proof.
  induction l as [|x l IH]; intros acc H; simpl; [rewrite app_nil_r; reflexivity|].
  rewrite insertDesc_last.
  - rewrite IH, <- app_assoc; [reflexivity|]; rewrite <- app_assoc; exact H.
  - intros y Hy; apply (StronglySorted_app_rel _ acc (x :: l) H); [exact Hy | left; reflexivity].
Qed.

Lemma sortDesc_sorted_id : forall l,
  StronglySorted scoreDesc l -> Rerank.sortDesc l = l.
Proof. intros l H; apply (sortDesc_fold_sorted l []); exact H. Qed.

Lemma rrf_score_lt : forall k i, -1 < k ->
  1 / (k + inject_Z (Z.of_nat (S i)) + 1) < 1 / (k + inject_Z (Z.of_nat i) + 1).
Proof.
  intros k i Hk.
  assert (Hi : inject_Z 0 <= inject_Z (Z.of_nat i)) by (rewrite <- Zle_Qle; lia).
  assert (HS : inject_Z (Z.of_nat (S i)) == inject_Z (Z.of_nat i) + 1)
    by (rewrite Nat2Z.inj_succ, <- Z.add_1_r, inject_Z_plus; reflexivity).
  change (inject_Z 0) with 0 in Hi.
  unfold Qdiv; rewrite !Qmult_1_l, HS.
  apply (Qinv_lt_contravar (k + inject_Z (Z.of_nat i) + 1)
           (k + (inject_Z (Z.of_nat i) + 1) + 1)); lra.
Qed.

Lemma rrf_score_mono : forall k i j, -1 < k -> (i < j)%nat ->
  1 / (k + inject_Z (Z.of_nat j) + 1) < 1 / (k + inject_Z (Z.of_nat i) + 1).
Proof.
  intros k i j Hk Hij; induction Hij as [|j Hij IH].
  - apply rrf_score_lt; exact Hk.
  - eapply Qlt_trans; [apply rrf_score_lt; exact Hk | exact IH].
Qed.

Lemma rescore_nth : forall k l idx i r,
  nth_error (RRF.rescore k idx l) i = Some r ->
  exists r0, nth_error l i = Some r0 /\ Rerank.document r = Rerank.document r0 /\
    Rerank.score r = 1 / (k + inject_Z (Z.of_nat (idx + i)) + 1).
Proof.
  intros k l; induction l as [|x l IH]; intros idx i r H; [destruct i; discriminate|].
  destruct i as [|i]; simpl in H.
  - injection H as <-; exists x; rewrite Nat.add_0_r; split; [reflexivity | split; reflexivity].
  - destruct (IH (S idx) i r H) as (r0 & H1 & H2 & H3); exists r0.
    rewrite Nat.add_succ_r; split; [exact H1 | split; assumption].
Qed.

Lemma rescore_documents : forall k l idx,
  map Rerank.document (RRF.rescore k idx l) = map Rerank.document l.
Proof.
  intros k l; induction l as [|x l IH]; intros idx; simpl; [reflexivity|].
  rewrite IH; reflexivity.
Qed.

Lemma rescore_sorted : forall k l idx, -1 < k ->
  Sorted scoreDesc (RRF.rescore k idx l).
Proof.
  intros k l; induction l as [|x l IH]; intros idx Hk; simpl; [constructor|].
  constructor; [apply IH; exact Hk|].
  destruct l as [|y l]; simpl; constructor.
  unfold scoreDesc; simpl; apply rrf_score_lt; exact Hk.
Qed.

Lemma rrf_rerank_id : forall k query l, -1 < k ->
  RRF.rerank k query l = RRF.rescore k 0 l.
Proof.
  intros k query l Hk; unfold RRF.rerank; apply sortDesc_sorted_id.
  apply Sorted_StronglySorted; [|apply rescore_sorted; exact Hk].
  intros a b c Hab Hbc; unfold scoreDesc in *; eapply Qlt_trans; eassumption.
Qed.

End RerankLemmas.

(** ** C9: the RRF reranker *)

(** C9. For every constant [k] above -1 (the default [RRF.create None] is 60),
    [RRFReranker.rerank] gives the result at input position [rank] the score
    [1 / (k + rank + 1)]; the output keeps the input order and the documents
    unchanged (the sort finds the list already sorted), so each output
    position [i] carries the score [1 / (k + i + 1)] and the scores are
    strictly decreasing along the output. *)
Theorem RRF_rerank_scores_decreasing : forall (k : Q) (query : str) (results : list Rerank.SearchResult),
  (-1 < k)%Q ->
  RRF.create None = 60%Q /\
  map Rerank.document (RRF.rerank k query results) = map Rerank.document results /\
  (forall i r, nth_error (RRF.rerank k query results) i = Some r ->
     Rerank.score r = (1 / (k + inject_Z (Z.of_nat i) + 1))%Q) /\
  (forall i j ri rj, (i < j)%nat ->
     nth_error (RRF.rerank k query results) i = Some ri ->
     nth_error (RRF.rerank k query results) j = Some rj ->
     (Rerank.score rj < Rerank.score ri)%Q).
Proof.
  intros k query results Hk.
  rewrite (rrf_rerank_id k query results Hk).
  split; [reflexivity|]. split; [apply rescore_documents|]. split.
  - intros i r H; destruct (rescore_nth k results 0 i r H) as (r0 & _ & _ & H3).
    exact H3.
  - intros i j ri rj Hij Hi Hj.
    destruct (rescore_nth k results 0 i ri Hi) as (? & _ & _ & Hsi).
    destruct (rescore_nth k results 0 j rj Hj) as (? & _ & _ & Hsj).
    rewrite Hsi, Hsj; simpl; apply rrf_score_mono; assumption.
Qed.

Lemma RRF_rerank_scores_decreasing_witness :
  (-1 < 60)%Q /\
  map Rerank.document (RRF.rerank 60 (S_ "q") rrf_input) = map Rerank.document rrf_input.
Proof.
  split; [reflexivity|].
  apply (RRF_rerank_scores_decreasing 60 (S_ "q") rrf_input); reflexivity.
Defined.

(** ** C2: the keyword reranker *)

(** C2. [KeywordReranker.rerank] hands each keyword to [new RegExp(keyword, 'g')]
    instead of counting substrings.  For the query "c++ tutorial" and one
    result, the keyword "c++" is not a valid pattern ("Nothing to repeat"), so
    [rerank] rejects, where substring counting as the spec words it returns
    the result rescored to 1 * (1 + 2 * 0.1) = 1.2.  Keywords are patterns
    also when they compile: "a.c" is counted once in "abc", where it has no
    substring occurrence. *)
Theorem Keyword_rerank_regex_keywords :
  Keyword.rerank (S_ "c++ tutorial") [kw_result "C++ tutorial"] = Keyword.Throws /\
  map Rerank.document (KeywordSpec.rerank (S_ "c++ tutorial") [kw_result "C++ tutorial"])
    = [Rerank.document (kw_result "C++ tutorial")] /\
  map (fun r => Qeq_bool (Rerank.score r) (6#5))
      (KeywordSpec.rerank (S_ "c++ tutorial") [kw_result "C++ tutorial"]) = [true] /\
  Keyword.compile (S_ "a.c") = Keyword.RxOk [Keyword.RChar "a"; Keyword.RDot; Keyword.RChar "c"] /\
  Keyword.countMatches [Keyword.RChar "a"; Keyword.RDot; Keyword.RChar "c"] (S_ "abc") = 1%nat /\
  KeywordSpec.occurrences (S_ "a.c") (S_ "abc") = 0%nat.
Proof. vm_compute; repeat split. Qed.

(** ** The cache key: a scanner over serialized JSON

    A proof device for the key's injectivity: [step] scans JSON text keeping
    the bracket depth and whether it is outside a string, inside one, just
    after a backslash in one, just after a closed string, after the closing
    bracket of the top-level value, or stuck on text that no JSON value
    contains. *)

Module KeyScan.
Import Server.

Inductive mode := LOut | LAfterStr | LIn | LEsc | LDone | LErr.

Definition close (d : nat) : nat * mode :=
  match d with
  | O => (O, LErr)
  | S O => (O, LDone)
  | S d' => (d', LOut)
  end.

Definition step (st : nat * mode) (c : ascii) : nat * mode :=
  let '(d, m) := st in
  let n := nat_of_ascii c in
  match m with
  | LErr | LDone => (d, LErr)
  | LEsc => (d, LIn)
  | LIn => if Nat.eqb n 92 then (d, LEsc) else if Nat.eqb n 34 then (d, LAfterStr) else (d, LIn)
  | LAfterStr =>
      if (Nat.eqb n 58 || Nat.eqb n 44)%bool then (d, LOut)
      else if (Nat.eqb n 125 || Nat.eqb n 93)%bool then close d
      else (d, LErr)
  | LOut =>
      if Nat.eqb n 34 then (d, LIn)
      else if (Nat.eqb n 123 || Nat.eqb n 91)%bool then (S d, LOut)
      else if (Nat.eqb n 125 || Nat.eqb n 93)%bool then close d
      else (d, LOut)
  end.

Definition lex (st : nat * mode) (s : str) : nat * mode := fold_left step s st.

(** No depth-0 state inside the top-level value. *)
Definition inv (st : nat * mode) : Prop :=
  match st with
  | (O, (LOut | LAfterStr | LIn | LEsc)) => False
  | _ => True
  end.

Lemma lex_app : forall st a b, lex st (a ++ b) = lex (lex st a) b.
Proof. intros; unfold lex; apply fold_left_app. Qed.

Lemma lex_cons : forall st c s, lex st (c :: s) = lex (step st c) s.
Proof. reflexivity. Qed.

Lemma lex_err : forall s d, lex (d, LErr) s = (d, LErr).
Proof. induction s as [|c s IH]; intros d; [reflexivity|]; apply IH. Qed.

Lemma inv_step : forall st c, inv st -> inv (step st c).
Proof.
  intros [d m] c H; unfold step.
  destruct m;
    repeat match goal with |- context [if ?b then _ else _] => destruct b end;
    destruct d as [|[|d]]; simpl in *; auto.
Qed.

Lemma inv_lex : forall s st, inv st -> inv (lex st s).
Proof.
  induction s as [|c s IH]; intros st H; [exact H|].
  rewrite lex_cons; apply IH, inv_step, H.
Qed.

(** Every escape stays inside the string. *)
Lemma lex_escapeChar : forall c d, lex (d, LIn) (escapeChar c) = (d, LIn).
Proof.
  intros c d; destruct c as [[] [] [] [] [] [] [] []]; vm_compute; reflexivity.
Qed.

Lemma lex_escaped : forall s d, lex (d, LIn) (flat_map escapeChar s) = (d, LIn).
Proof.
  induction s as [|c s IH]; intros d; [reflexivity|].
  simpl; rewrite lex_app, lex_escapeChar; apply IH.
Qed.

Lemma lex_quote : forall s d, lex (d, LOut) (quote s) = (d, LAfterStr).
Proof.
  intros s d; unfold quote; rewrite lex_cons, lex_app.
  change (step (d, LOut) (ascii_of_nat 34)) with (d, LIn).
  rewrite lex_escaped; reflexivity.
Qed.

(** Induction over JSON values, through the elements of arrays and objects. *)
Section JsonInd.
Variable P : json -> Prop.
Hypothesis HNull : P JNull.
Hypothesis HBool : forall b, P (JBool b).
Hypothesis HNum : forall n, P (JNum n).
Hypothesis HStr : forall s, P (JStr s).
Hypothesis HArr : forall vs, Forall P vs -> P (JArr vs).
Hypothesis HObj : forall ms, Forall (fun m => P (snd m)) ms -> P (JObj ms).

Fixpoint json_ind' (v : json) : P v :=
  match v with
  | JNull => HNull
  | JBool b => HBool b
  | JNum n => HNum n
  | JStr s => HStr s
  | JArr vs =>
      HArr vs ((fix go (l : list json) : Forall P l :=
                  match l with
                  | [] => Forall_nil _
                  | x :: r => Forall_cons _ (json_ind' x) (go r)
                  end) vs)
  | JObj ms =>
      HObj ms ((fix go (l : list (str * json)) : Forall (fun m => P (snd m)) l :=
                  match l with
                  | [] => Forall_nil _
                  | (k, x) :: r => Forall_cons (A := str * json) (k, x) (json_ind' x) (go r)
                  end) ms)
  end.
End JsonInd.

Definition isDigit (c : ascii) : bool :=
  (Nat.leb 48 (nat_of_ascii c) && Nat.leb (nat_of_ascii c) 57)%bool.

Definition numChar (c : ascii) : bool := (isDigit c || Nat.eqb (nat_of_ascii c) 45)%bool.

Lemma uint_chars : forall u c,
  In c (list_ascii_of_string (DecimalString.NilEmpty.string_of_uint u)) -> isDigit c = true.
Proof.
  induction u; simpl; intros c H; try contradiction;
    destruct H as [<- | H]; try reflexivity; apply IHu; exact H.
Qed.

Lemma num_chars : forall n c, In c (num n) -> numChar c = true.
Proof.
  intros n c; unfold num, DecimalString.NilEmpty.string_of_int.
  destruct (Z.to_int n) as [u|u]; simpl.
  - intros H; unfold numChar; rewrite (uint_chars u c H); reflexivity.
  - intros [<- | H]; [reflexivity|].
    unfold numChar; rewrite (uint_chars u c H); reflexivity.
Qed.

Lemma lex_plain : forall s d, (forall c, In c s -> numChar c = true) -> lex (d, LOut) s = (d, LOut).
Proof.
  induction s as [|c s IH]; intros d H; [reflexivity|].
  rewrite lex_cons.
  assert (Hc : numChar c = true) by (apply H; left; reflexivity).
  replace (step (d, LOut) c) with (d, LOut).
  - apply IH; intros c' Hc'; apply H; right; exact Hc'.
  - unfold numChar, isDigit in Hc; unfold step.
    destruct (nat_of_ascii c) as [|n]; [discriminate|].
    repeat match goal with |- context [if ?b then _ else _] => destruct b eqn:? end;
      try reflexivity; rewrite ?Bool.orb_true_iff, ?Bool.andb_true_iff, ?Nat.eqb_eq, ?Nat.leb_le in *;
      lia.
Qed.

Definition okAt (D : nat) (st : nat * mode) : Prop := st = (D, LOut) \/ st = (D, LAfterStr).

Lemma lex_commas : forall rest D st, okAt D st ->
  (forall y, In y rest -> okAt D (lex (D, LOut) y)) ->
  okAt D (lex st (flat_map (fun y => ","%char :: y) rest)).
Proof.
  induction rest as [|y rest IH]; intros D st Hst H; [exact Hst|].
  cbn [flat_map app]; rewrite lex_cons, lex_app.
  replace (step st ","%char) with (D, LOut) by (destruct Hst as [-> | ->]; reflexivity).
  apply IH; [apply H; left; reflexivity|].
  intros z Hz; apply H; right; exact Hz.
Qed.

Lemma lex_joinComma : forall xs D,
  (forall x, In x xs -> okAt D (lex (D, LOut) x)) -> okAt D (lex (D, LOut) (joinComma xs)).
Proof.
  intros [|x rest] D H; [left; reflexivity|].
  cbn [joinComma]; rewrite lex_app; apply lex_commas.
  - apply H; left; reflexivity.
  - intros y Hy; apply H; right; exact Hy.
Qed.

Lemma lex_container : forall o cl xs d,
  (nat_of_ascii o = 123 \/ nat_of_ascii o = 91)%nat ->
  (nat_of_ascii cl = 125 \/ nat_of_ascii cl = 93)%nat ->
  (forall x, In x xs -> okAt (S d) (lex (S d, LOut) x)) ->
  lex (d, LOut) (o :: joinComma xs ++ [cl]) = close (S d).
Proof.
  intros o cl xs d Ho Hcl H; rewrite lex_cons, lex_app.
  replace (step (d, LOut) o) with (S d, LOut)
    by (unfold step; destruct Ho as [-> | ->]; reflexivity).
  destruct (lex_joinComma xs (S d) H) as [-> | ->];
    unfold lex; simpl; destruct Hcl as [-> | ->]; reflexivity.
Qed.

Definition valueMode (v : json) : mode :=
  match v with JStr _ => LAfterStr | _ => LOut end.

Lemma lex_value : forall v d, lex (S d, LOut) (stringify v) = (S d, valueMode v).
Proof.
  apply (json_ind' (fun v => forall d, lex (S d, LOut) (stringify v) = (S d, valueMode v))).
  - reflexivity.
  - intros [|] d; reflexivity.
  - intros n d; apply lex_plain, num_chars.
  - intros s d; apply lex_quote.
  - intros vs Hvs d; cbn [stringify].
    rewrite (lex_container "["%char "]"%char); [reflexivity | right; reflexivity | right; reflexivity |].
    intros x Hx; apply in_map_iff in Hx as (v & <- & Hv).
    rewrite Forall_forall in Hvs; rewrite (Hvs v Hv).
    destruct v; unfold okAt; simpl; auto.
  - intros ms Hms d; cbn [stringify].
    rewrite (lex_container "{"%char "}"%char); [reflexivity | left; reflexivity | left; reflexivity |].
    intros x Hx; apply in_map_iff in Hx as ([k v] & <- & Hv).
    rewrite Forall_forall in Hms; specialize (Hms (k, v) Hv); simpl in Hms.
    rewrite lex_app, lex_quote, lex_cons; change (step (S (S d), LAfterStr) ":"%char) with (S (S d), LOut).
    rewrite Hms; destruct v; unfold okAt; simpl; auto.
Qed.

Lemma stringify_JObj : forall ms, stringify (JObj ms) =
  "{"%char :: joinComma (map (fun '(k, v) => quote k ++ ":"%char :: stringify v) ms) ++ ["}"%char].
Proof. reflexivity. Qed.

Lemma stringify_JArr : forall vs, stringify (JArr vs) =
  "["%char :: joinComma (map stringify vs) ++ ["]"%char].
Proof. reflexivity. Qed.

Lemma lex_object : forall ms d, lex (d, LOut) (stringify (JObj ms)) = close (S d).
Proof.
  intros ms d; cbn [stringify].
  rewrite (lex_container "{"%char "}"%char); [reflexivity | left; reflexivity | left; reflexivity |].
  intros x Hx; apply in_map_iff in Hx as ([k v] & <- & _).
  rewrite lex_app, lex_quote, lex_cons; change (step (S d, LAfterStr) ":"%char) with (S d, LOut).
  rewrite lex_value; destruct v; unfold okAt; simpl; auto.
Qed.

Lemma stringify_object_head : forall ms, exists rest, stringify (JObj ms) = "{"%char :: rest.
Proof. intros ms; eexists; reflexivity. Qed.

(** A member name of [MetadataFilter] starts with a letter, which cannot
    follow a closed string. *)
Lemma field_head : forall k, In k filterFields ->
  exists c k', k = c :: k' /\ escapeChar c = [c] /\ forall d, step (d, LAfterStr) c = (d, LErr).
Proof.
  intros k H; simpl in H.
  repeat (destruct H as [<- | H]; [do 2 eexists; split; [reflexivity | split; [reflexivity | reflexivity]] |]).
  contradiction.
Qed.

(** Scanning a filter object from inside a string gets stuck, or stays in
    the string. *)
Lemma lex_object_in_string : forall ms d m, isFilterObject (JObj ms) = true ->
  m = LIn \/ m = LEsc -> lex (d, m) (stringify (JObj ms)) = (d, LIn) \/ lex (d, m) (stringify (JObj ms)) = (d, LErr).
Proof.
  intros [|[k v] ms] d m Hf Hm.
  - left; destruct Hm as [-> | ->]; reflexivity.
  - right; cbn [isFilterObject forallb fst] in Hf; apply andb_true_iff in Hf as [Hk _].
    apply existsb_exists in Hk as (k0 & Hk0 & Heq); apply str_eqb_spec in Heq; subst k0.
    destruct (field_head k Hk0) as (c & k' & -> & Hc & Hstep).
    rewrite stringify_JObj; cbn [map joinComma]; unfold quote; cbn [flat_map]; rewrite Hc.
    rewrite lex_cons.
    replace (step (d, m) "{"%char) with (d, LIn) by (destruct Hm as [-> | ->]; reflexivity).
    cbn [app]; rewrite !lex_cons.
    change (step (d, LIn) (ascii_of_nat 34)) with (d, LAfterStr).
    rewrite Hstep; apply lex_err.
Qed.

(** A filter object is no proper suffix of another JSON object's text. *)
Lemma object_suffix : forall W ms1 ms2, isFilterObject (JObj ms1) = true ->
  W ++ stringify (JObj ms1) = stringify (JObj ms2) -> W = [].
Proof.
  intros W ms1 ms2 Hf Heq; destruct W as [|c W']; [reflexivity|]; exfalso.
  assert (Htop := lex_object ms2 0); rewrite <- Heq, lex_app in Htop.
  destruct (stringify_object_head ms2) as [rest2 Hr2]; rewrite Hr2 in Heq.
  injection Heq as -> _.
  rewrite lex_cons in Htop; change (step (0%nat, LOut) "{"%char) with (1%nat, LOut) in Htop.
  assert (Hinv : inv (lex (1%nat, LOut) W')) by (apply inv_lex; exact I).
  destruct (lex (1%nat, LOut) W') as [d m]; destruct (stringify_object_head ms1) as [rest1 Hr1].
  destruct m.
  - destruct d as [|d]; [contradiction|]; rewrite lex_object in Htop; discriminate.
  - rewrite Hr1, lex_cons in Htop; change (step (d, LAfterStr) "{"%char) with (d, LErr) in Htop.
    rewrite lex_err in Htop; discriminate.
  - destruct (lex_object_in_string ms1 d LIn Hf (or_introl eq_refl)) as [H | H];
      rewrite H in Htop; discriminate.
  - destruct (lex_object_in_string ms1 d LEsc Hf (or_intror eq_refl)) as [H | H];
      rewrite H in Htop; discriminate.
  - rewrite Hr1, lex_cons in Htop; change (step (d, LDone) "{"%char) with (d, LErr) in Htop.
    rewrite lex_err in Htop; discriminate.
  - rewrite lex_err in Htop; discriminate.
Qed.

End KeyScan.

(** ** The cache key: the pieces it is built from *)

Section CacheKeyLemmas.
Import Server.

Lemma num_inj : forall n m, num n = num m -> n = m.
Proof.
  intros n m H; unfold num in H.
  apply (f_equal string_of_list_ascii) in H; rewrite !string_of_list_ascii_of_string in H.
  apply (f_equal DecimalString.NilEmpty.int_of_string) in H.
  rewrite !DecimalString.NilEmpty.isi in H; injection H as H.
  apply DecimalZ.to_int_inj, H.
Qed.

Lemma num_nonempty : forall n, num n <> [].
Proof.
  intros n H; assert (H0 := H); unfold num in H.
  apply (f_equal string_of_list_ascii) in H; rewrite string_of_list_ascii_of_string in H.
  apply (f_equal DecimalString.NilEmpty.int_of_string) in H.
  rewrite DecimalString.NilEmpty.isi in H; injection H as H.
  apply (f_equal Z.of_int) in H; rewrite DecimalZ.of_to in H; subst n; discriminate H0.
Qed.

Lemma num_no_colon : forall n, ~ In ":"%char (num n).
Proof. intros n H; apply KeyScan.num_chars in H; discriminate. Qed.

Lemma split_at_sep : forall (c : ascii) a1 b1 a2 b2, ~ In c b1 -> ~ In c b2 ->
  a1 ++ c :: b1 = a2 ++ c :: b2 -> a1 = a2 /\ b1 = b2.
Proof.
  intros c a1; induction a1 as [|x a1 IH]; intros b1 [|y a2] b2 H1 H2 H; simpl in H.
  - injection H as ->; split; reflexivity.
  - injection H as -> H; exfalso; apply H1; rewrite H; apply in_or_app; right; left; reflexivity.
  - injection H as <- H; exfalso; apply H2; rewrite <- H; apply in_or_app; right; left; reflexivity.
  - injection H as -> H; destruct (IH b1 a2 b2 H1 H2 H) as [-> ->]; split; reflexivity.
Qed.

Lemma cacheKey_split : forall q k f, cacheKey q k f =
  (S_ "query:" ++ q ++ ":"%char :: num (topK k) ++ [":"%char]) ++ stringify (filterOrEmpty f).
Proof.
  intros q k f; unfold cacheKey; rewrite <- !app_assoc; cbn [app]; rewrite <- !app_assoc; reflexivity.
Qed.

(** Reading one escaped character back, as [JSON.parse] does. *)
Definition hexVal (c : ascii) : nat :=
  let n := nat_of_ascii c in if Nat.leb n 57 then n - 48 else n - 87.

Definition unescape (s : str) : option (ascii * str) :=
  match s with
  | [] => None
  | c :: rest =>
      if Nat.eqb (nat_of_ascii c) 92 then
        match rest with
        | [] => None
        | e :: rest' =>
            let n := nat_of_ascii e in
            if Nat.eqb n 34 then Some (ascii_of_nat 34, rest')
            else if Nat.eqb n 92 then Some (c, rest')
            else if Nat.eqb n 98 then Some (ascii_of_nat 8, rest')
            else if Nat.eqb n 102 then Some (ascii_of_nat 12, rest')
            else if Nat.eqb n 110 then Some (ascii_of_nat 10, rest')
            else if Nat.eqb n 114 then Some (ascii_of_nat 13, rest')
            else if Nat.eqb n 116 then Some (ascii_of_nat 9, rest')
            else if Nat.eqb n 117 then
              match rest' with
              | _ :: _ :: h1 :: h2 :: r => Some (ascii_of_nat (16 * hexVal h1 + hexVal h2), r)
              | _ => None
              end
            else None
        end
      else if Nat.eqb (nat_of_ascii c) 34 then None
      else Some (c, rest)
  end.

Lemma unescape_escapeChar : forall c X, unescape (escapeChar c ++ X) = Some (c, X).
Proof. intros c X; destruct c as [[] [] [] [] [] [] [] []]; reflexivity. Qed.

Lemma escaped_prefix : forall s t r1 r2,
  flat_map escapeChar s ++ ascii_of_nat 34 :: r1 = flat_map escapeChar t ++ ascii_of_nat 34 :: r2 ->
  s = t /\ r1 = r2.
Proof.
  induction s as [|c s IH]; intros [|e t] r1 r2 H; cbn [flat_map] in H.
  - injection H as ->; split; reflexivity.
  - apply (f_equal unescape) in H; rewrite <- app_assoc, unescape_escapeChar in H; discriminate.
  - apply (f_equal unescape) in H; rewrite <- app_assoc, unescape_escapeChar in H; discriminate.
  - rewrite <- !app_assoc in H; apply (f_equal unescape) in H.
    rewrite !unescape_escapeChar in H; injection H as -> H.
    destruct (IH t r1 r2 H) as [-> ->]; split; reflexivity.
Qed.

Lemma quote_prefix : forall s t r1 r2, quote s ++ r1 = quote t ++ r2 -> s = t /\ r1 = r2.
Proof.
  intros s t r1 r2 H; unfold quote in H; cbn [app] in H; injection H as H.
  rewrite <- !app_assoc in H; cbn [app] in H; apply escaped_prefix, H.
Qed.

(** What may follow a value inside JSON text: nothing, a comma or a closing bracket. *)
Definition delim (r : str) : Prop :=
  r = [] \/ exists c r', r = c :: r' /\
    (nat_of_ascii c = 44 \/ nat_of_ascii c = 93 \/ nat_of_ascii c = 125)%nat.

Lemma delim_head : forall c r, delim (c :: r) -> KeyScan.numChar c = false.
Proof.
  intros c r [H | (c' & r' & H & Hc)]; [discriminate|]; injection H as <- _.
  unfold KeyScan.numChar, KeyScan.isDigit; destruct Hc as [-> | [-> | ->]]; reflexivity.
Qed.

Lemma numeric_prefix : forall a b r1 r2,
  (forall c, In c a -> KeyScan.numChar c = true) -> (forall c, In c b -> KeyScan.numChar c = true) ->
  delim r1 -> delim r2 -> a ++ r1 = b ++ r2 -> a = b /\ r1 = r2.
Proof.
  induction a as [|x a IH]; intros [|y b] r1 r2 Ha Hb D1 D2 H; cbn [app] in H.
  - split; [reflexivity | exact H].
  - subst r1; apply delim_head in D1; rewrite (Hb y (or_introl eq_refl)) in D1; discriminate.
  - subst r2; apply delim_head in D2; rewrite (Ha x (or_introl eq_refl)) in D2; discriminate.
  - injection H as -> H.
    destruct (IH b r1 r2 (fun c Hc => Ha c (or_intror Hc)) (fun c Hc => Hb c (or_intror Hc)) D1 D2 H)
      as [-> ->]; split; reflexivity.
Qed.

Section Items.
Variable A : Type.
Variable enc : A -> str.
Variable cl : ascii.
Hypothesis Hcl : (nat_of_ascii cl = 93 \/ nat_of_ascii cl = 125)%nat.
Hypothesis Hhead : forall a, exists c rest, enc a = c :: rest /\ c <> cl.

Definition itemPF (a : A) : Prop :=
  forall b r1 r2, delim r1 -> delim r2 -> enc a ++ r1 = enc b ++ r2 -> a = b /\ r1 = r2.

Lemma delim_items : forall zs r, delim (flat_map (fun y => ","%char :: y) (map enc zs) ++ cl :: r).
Proof.
  intros [|z zs] r; right.
  - exists cl, r; split; [reflexivity | right; exact Hcl].
  - eexists; eexists; split; [reflexivity | left; reflexivity].
Qed.

Lemma comma_ne_cl : ","%char <> cl.
Proof. intros H; rewrite <- H in Hcl; destruct Hcl as [Hc | Hc]; discriminate. Qed.

Lemma commas_prefix : forall xs, Forall itemPF xs -> forall ys r1 r2,
  flat_map (fun y => ","%char :: y) (map enc xs) ++ cl :: r1 =
  flat_map (fun y => ","%char :: y) (map enc ys) ++ cl :: r2 -> xs = ys /\ r1 = r2.
Proof.
  induction xs as [|x xs IH]; intros Hxs [|y ys] r1 r2 H; cbn [map flat_map app] in H.
  - injection H as ->; split; reflexivity.
  - injection H as Hc _; exfalso; apply comma_ne_cl; symmetry; exact Hc.
  - injection H as Hc _; exfalso; apply comma_ne_cl; exact Hc.
  - injection H as H; rewrite <- !app_assoc in H.
    inversion Hxs as [|? ? Hx Hxs']; subst.
    destruct (Hx y _ _ (delim_items xs r1) (delim_items ys r2) H) as [-> H'].
    destruct (IH Hxs' ys r1 r2 H') as [-> ->]; split; reflexivity.
Qed.

Lemma joined_prefix : forall xs, Forall itemPF xs -> forall ys r1 r2,
  joinComma (map enc xs) ++ cl :: r1 = joinComma (map enc ys) ++ cl :: r2 -> xs = ys /\ r1 = r2.
Proof.
  intros [|x xs] Hxs [|y ys] r1 r2 H; cbn [map joinComma app] in H.
  - injection H as ->; split; reflexivity.
  - destruct (Hhead y) as (c & rest & Hy & Hc); rewrite <- app_assoc, Hy in H.
    injection H as H _; contradiction (Hc (eq_sym H)).
  - destruct (Hhead x) as (c & rest & Hx & Hc); rewrite <- app_assoc, Hx in H.
    injection H as H _; contradiction (Hc H).
  - rewrite <- !app_assoc in H; inversion Hxs as [|? ? Hx Hxs']; subst.
    destruct (Hx y _ _ (delim_items xs r1) (delim_items ys r2) H) as [-> H'].
    destruct (commas_prefix xs Hxs' ys r1 r2 H') as [-> ->]; split; reflexivity.
Qed.

End Items.

Definition kind (v : json) : nat :=
  match v with
  | JNull => 0 | JBool true => 1 | JBool false => 2 | JNum _ => 3
  | JStr _ => 4 | JArr _ => 5 | JObj _ => 6
  end.

Definition charKind (c : ascii) : nat :=
  if KeyScan.numChar c then 3 else
  let n := nat_of_ascii c in
  if Nat.eqb n 110 then 0 else if Nat.eqb n 116 then 1 else if Nat.eqb n 102 then 2
  else if Nat.eqb n 34 then 4 else if Nat.eqb n 91 then 5 else if Nat.eqb n 123 then 6 else 7.

Lemma stringify_head : forall v, exists c rest, stringify v = c :: rest /\ charKind c = kind v.
Proof.
  intros [| [|] | n | s | vs | ms]; try (do 2 eexists; split; reflexivity).
  destruct (num n) as [|c rest] eqn:E; [contradiction (num_nonempty n E)|].
  exists c, rest; split; [exact E|].
  unfold charKind; rewrite (KeyScan.num_chars n c); [reflexivity|].
  rewrite E; left; reflexivity.
Qed.

Lemma kind_eq : forall v w r1 r2, stringify v ++ r1 = stringify w ++ r2 -> kind v = kind w.
Proof.
  intros v w r1 r2 H.
  destruct (stringify_head v) as (c1 & t1 & E1 & K1), (stringify_head w) as (c2 & t2 & E2 & K2).
  rewrite E1, E2 in H; injection H as -> _; congruence.
Qed.

Lemma head_not_closer : forall (cl : ascii) v,
  (nat_of_ascii cl = 93 \/ nat_of_ascii cl = 125)%nat ->
  exists c rest, stringify v = c :: rest /\ c <> cl.
Proof.
  intros cl v Hcl; destruct (stringify_head v) as (c & rest & E & K).
  exists c, rest; split; [exact E|]; intros ->.
  assert (Hk : charKind cl = 7%nat) by (unfold charKind, KeyScan.numChar, KeyScan.isDigit;
    destruct Hcl as [-> | ->]; reflexivity).
  rewrite Hk in K; destruct v as [| [|] | | | |]; discriminate.
Qed.

Lemma member_head : forall m : str * json,
  exists c rest, (let '(k, v) := m in quote k ++ ":"%char :: stringify v) = c :: rest /\ c <> "}"%char.
Proof. intros [k v]; do 2 eexists; split; [reflexivity | discriminate]. Qed.

(** [JSON.stringify] is injective on JSON values, and its output is never a
    proper prefix of another value's followed by a delimiter. *)
Lemma stringify_prefix : forall v w r1 r2, delim r1 -> delim r2 ->
  stringify v ++ r1 = stringify w ++ r2 -> v = w /\ r1 = r2.
Proof.
  apply (KeyScan.json_ind' (fun v => forall w r1 r2, delim r1 -> delim r2 ->
           stringify v ++ r1 = stringify w ++ r2 -> v = w /\ r1 = r2));
    intros; try match goal with b : bool |- _ => destruct b end;
    match goal with H : stringify _ ++ _ = stringify ?w ++ _ |- _ =>
      pose proof (kind_eq _ _ _ _ H) as Hk; destruct w as [| [|] | | | |]; simpl in Hk;
      try discriminate end.
  - split; [reflexivity | eapply app_inv_head; eassumption].
  - split; [reflexivity | eapply app_inv_head; eassumption].
  - split; [reflexivity | eapply app_inv_head; eassumption].
  - destruct (numeric_prefix (num n) (num n0) r1 r2 (KeyScan.num_chars n) (KeyScan.num_chars n0)
      H H0 H1) as [E ->].
    rewrite (num_inj n n0 E); split; reflexivity.
  - destruct (quote_prefix s s0 r1 r2 H1) as [-> ->]; split; reflexivity.
  - rewrite !KeyScan.stringify_JArr in H2; cbn [app] in H2; injection H2 as H2.
    rewrite <- !app_assoc in H2; cbn [app] in H2.
    destruct (joined_prefix json stringify "]"%char (or_introl eq_refl)
      (fun v => head_not_closer "]"%char v (or_introl eq_refl)) vs H vs0 r1 r2 H2) as [-> ->].
    split; reflexivity.
  - rewrite !KeyScan.stringify_JObj in H2; cbn [app] in H2; injection H2 as H2.
    rewrite <- !app_assoc in H2; cbn [app] in H2.
    assert (Hms : Forall (itemPF (str * json) (fun '(k, v) => quote k ++ ":"%char :: stringify v)) ms).
    { eapply Forall_impl; [|exact H]; intros [k v] Hv [k' v'] q1 q2 D1 D2 E.
      change (forall w r1 r2, delim r1 -> delim r2 ->
        stringify v ++ r1 = stringify w ++ r2 -> v = w /\ r1 = r2) in Hv.
      cbv beta iota in E.
      rewrite <- !app_assoc in E; destruct (quote_prefix k k' _ _ E) as [Ek E']; subst k'.
      cbn [app] in E'; injection E' as E'; destruct (Hv v' q1 q2 D1 D2 E') as [-> ->].
      split; reflexivity. }
    destruct (joined_prefix (str * json) (fun '(k, v) => quote k ++ ":"%char :: stringify v)
      "}"%char (or_intror eq_refl)
      member_head
      ms Hms ms0 r1 r2 H2) as [-> ->].
    split; reflexivity.
Qed.

Lemma stringify_inj : forall v w, stringify v = stringify w -> v = w.
Proof.
  intros v w H; apply (stringify_prefix v w [] []); [left; reflexivity | left; reflexivity |].
  rewrite !app_nil_r; exact H.
Qed.

End CacheKeyLemmas.

(** ** C3: the cache key of the /query handler *)

(** C3 (counterexample). The key is built from [k || 5] and [filter || {}],
    not from the requested values: a request with [k = 0] and no filter and
    a request with [k = 5] and the filter [{}] are distinct tuples with the
    same key. *)
Lemma Server_cacheKey_collides :
  Server.cacheKey (S_ "rag") (Some 0) None = Server.cacheKey (S_ "rag") (Some 5) (Some (Server.JObj [])) /\
  Some 0 <> Some 5 /\ None <> Some (Server.JObj []).
Proof. split; [reflexivity | split; discriminate]. Qed.

(** C3 (amended). For string queries, integer top-k values and filters that
    are JSON objects whose member names are those of [MetadataFilter], the
    key [query:${query}:${k || 5}:${JSON.stringify(filter || {})}] determines
    the query, the effective top-k [k || 5] and the filter [filter || {}]:
    equal keys come only from equal triples. *)
Theorem Server_cacheKey_injective : forall q1 q2 k1 k2 f1 f2,
  Server.isFilterObject (Server.filterOrEmpty f1) = true ->
  Server.isFilterObject (Server.filterOrEmpty f2) = true ->
  Server.cacheKey q1 k1 f1 = Server.cacheKey q2 k2 f2 ->
  q1 = q2 /\ Server.topK k1 = Server.topK k2 /\ Server.filterOrEmpty f1 = Server.filterOrEmpty f2.
Proof.
  intros q1 q2 k1 k2 f1 f2 Hf1 Hf2 H; rewrite !cacheKey_split in H.
  destruct (Server.filterOrEmpty f1) as [| | | | | ms1]; try discriminate.
  destruct (Server.filterOrEmpty f2) as [| | | | | ms2]; try discriminate.
  assert (HJ : Server.stringify (Server.JObj ms1) = Server.stringify (Server.JObj ms2) /\
    S_ "query:" ++ q1 ++ ":"%char :: Server.num (Server.topK k1) ++ [":"%char] =
    S_ "query:" ++ q2 ++ ":"%char :: Server.num (Server.topK k2) ++ [":"%char]).
  { apply app_eq_app in H as (l & [[HA HJ] | [HA HJ]]).
    - rewrite (KeyScan.object_suffix l ms1 ms2 Hf1 (eq_sym HJ)), app_nil_r in HA.
      rewrite (KeyScan.object_suffix l ms1 ms2 Hf1 (eq_sym HJ)) in HJ.
      split; [symmetry; exact HJ | exact HA].
    - rewrite (KeyScan.object_suffix l ms2 ms1 Hf2 (eq_sym HJ)), app_nil_r in HA.
      rewrite (KeyScan.object_suffix l ms2 ms1 Hf2 (eq_sym HJ)) in HJ.
      split; [exact HJ | symmetry; exact HA]. }
  destruct HJ as [HJ HA].
  apply app_inv_head in HA.
  rewrite (app_comm_cons _ _ ":"%char), (app_comm_cons _ [":"%char] ":"%char), !app_assoc in HA.
  apply app_inj_tail in HA as [HA _].
  destruct (split_at_sep ":"%char q1 _ q2 _ (num_no_colon _) (num_no_colon _) HA) as [-> Hn].
  split; [reflexivity|]; split; [apply num_inj, Hn|].
  apply stringify_inj, HJ.
Qed.

Lemma Server_cacheKey_injective_witness :
  Server.cacheKey (S_ "what is rag: 5") None (Some keyFilter) =
    Server.cacheKey (S_ "what is rag: 5") (Some 5) (Some keyFilter) /\
  Server.topK None = Server.topK (Some 5).
Proof.
  split; [reflexivity|].
  apply (Server_cacheKey_injective (S_ "what is rag: 5") (S_ "what is rag: 5") None (Some 5)
    (Some keyFilter) (Some keyFilter)); reflexivity.
Defined.

(* ================================================================= *)
(** * Further properties of the code *)

(** ** FixedSizeTextSplitter: the chunks in closed form *)

Lemma firstn_add_skipn : forall (A : Type) (l : list A) a b,
  firstn a l ++ firstn b (skipn a l) = firstn (a + b) l.
Proof.
  intros A l a; revert l; induction a as [|a IH]; intros l b; [reflexivity|].
  destruct l as [|x l]; simpl; [destruct b; reflexivity|].
  rewrite IH; reflexivity.
Qed.

Lemma js_slice_nonneg : forall s a b, 0 <= a -> 0 <= b ->
  js_slice s a b =
  if Z.min a (len s) <? Z.min b (len s)
  then firstn (Z.to_nat (Z.min b (len s) - Z.min a (len s)))
         (skipn (Z.to_nat (Z.min a (len s))) s)
  else [].
Proof.
  intros s a b Ha Hb; unfold js_slice, js_pos.
  destruct (Z.ltb_spec a 0); [lia|]. destruct (Z.ltb_spec b 0); [lia|]. reflexivity.
Qed.

(** The [i]-th window of the loop: [text.slice(i * stride, min(i * stride + chunkSize, length))]. *)
Definition fixedWindow (self : Fixed.FixedSizeTextSplitter) (text : str) (i : nat) : str :=
  js_slice text (Z.of_nat i * (Fixed.chunkSize self - Fixed.chunkOverlap self))
    (Z.min (Z.of_nat i * (Fixed.chunkSize self - Fixed.chunkOverlap self) + Fixed.chunkSize self)
       (len text)).

Lemma splitLoop_closed : forall self text fuel n r,
  1 <= Fixed.chunkSize self - Fixed.chunkOverlap self ->
  (n = O \/ (Z.of_nat n - 1) * (Fixed.chunkSize self - Fixed.chunkOverlap self) < len text) ->
  Fixed.splitLoop fuel self text (Z.of_nat n * (Fixed.chunkSize self - Fixed.chunkOverlap self))
    (map (fixedWindow self text) (seq 0 n)) = Some r ->
  exists m, r = map (fixedWindow self text) (seq 0 m) /\
    len text <= Z.of_nat m * (Fixed.chunkSize self - Fixed.chunkOverlap self) /\
    (m = O \/ (Z.of_nat m - 1) * (Fixed.chunkSize self - Fixed.chunkOverlap self) < len text).
Proof.
  intros self text fuel; induction fuel as [|fuel IH]; intros n r Hs Hn H;
    simpl in H; [discriminate|].
  destruct (Z.ltb_spec (Z.of_nat n * (Fixed.chunkSize self - Fixed.chunkOverlap self))
              (len text)) as [Hlt | Hge].
  - apply (IH (S n)); [exact Hs | right; lia |].
    rewrite seq_S, map_app.
    replace (Z.of_nat (S n) * (Fixed.chunkSize self - Fixed.chunkOverlap self))
      with (Z.of_nat n * (Fixed.chunkSize self - Fixed.chunkOverlap self) +
            (Fixed.chunkSize self - Fixed.chunkOverlap self)) by lia.
    exact H.
  - injection H as <-; exists n; split; [reflexivity|]; split; [lia | exact Hn].
Qed.

Lemma fixed_count : forall s l m, 1 <= s -> 0 <= l -> l <= Z.of_nat m * s ->
  (m = O \/ (Z.of_nat m - 1) * s < l) -> m = Z.to_nat ((l + s - 1) / s).
Proof.
  intros s l m Hs Hl Hle Hm.
  rewrite <- (Z.div_unique (l + s - 1) s (Z.of_nat m) (l + s - 1 - Z.of_nat m * s)).
  - rewrite Nat2Z.id; reflexivity.
  - left; destruct Hm as [-> | Hm]; simpl in *; lia.
  - lia.
Qed.

Lemma fixed_closed_form : forall self text r,
  1 <= Fixed.chunkSize self - Fixed.chunkOverlap self ->
  Fixed.splitText_returns self text r ->
  r = map (fixedWindow self text)
        (seq 0 (Z.to_nat ((len text + (Fixed.chunkSize self - Fixed.chunkOverlap self) - 1)
                          / (Fixed.chunkSize self - Fixed.chunkOverlap self)))).
Proof.
  intros self text r Hs [fuel Hf].
  destruct (splitLoop_closed self text fuel O r Hs (or_introl eq_refl) Hf) as (m & -> & H1 & H2).
  rewrite <- (fixed_count _ (len text) m); [reflexivity | exact Hs | unfold len; lia | exact H1 | exact H2].
Qed.

Lemma fixed_concat_windows : forall self text n,
  Fixed.chunkOverlap self = 0 -> 1 <= Fixed.chunkSize self ->
  concat (map (fixedWindow self text) (seq 0 n)) =
  firstn (Z.to_nat (Z.min (Z.of_nat n * Fixed.chunkSize self) (len text))) text.
Proof.
  intros self text n Hco Hcs; induction n as [|n IH].
  { simpl; rewrite Z.min_l by (unfold len; lia); reflexivity. }
  rewrite seq_S, map_app, concat_app, IH; cbn [concat map Nat.add]; rewrite app_nil_r.
  unfold fixedWindow; rewrite Hco, Z.sub_0_r.
  assert (Hl : 0 <= len text) by (unfold len; lia).
  rewrite js_slice_nonneg by nia.
  destruct (Z.ltb_spec (Z.min (Z.of_nat n * Fixed.chunkSize self) (len text))
              (Z.min (Z.min (Z.of_nat n * Fixed.chunkSize self + Fixed.chunkSize self) (len text))
                 (len text))) as [Hlt | Hge].
  - rewrite firstn_add_skipn; f_equal; nia.
  - rewrite app_nil_r; f_equal.
    set (t := Z.of_nat n * Fixed.chunkSize self) in *.
    assert (Ht : len text <= t) by lia.
    rewrite Z.min_r by lia; rewrite Z.min_r by nia; reflexivity.
Qed.

(** X1. When the stride [chunkSize - chunkOverlap] is at least 1,
    [FixedSizeTextSplitter.splitText] returns exactly
    [ceil(length / stride)] chunks, the [i]-th being
    [text.slice(i * stride, min(i * stride + chunkSize, length))]: consecutive
    chunks start [stride] characters apart, and an empty text gives no chunk. *)
Theorem Fixed_splitText_windows : forall self text r,
  1 <= Fixed.chunkSize self - Fixed.chunkOverlap self ->
  Fixed.splitText_returns self text r ->
  r = map (fun i : nat =>
             js_slice text (Z.of_nat i * (Fixed.chunkSize self - Fixed.chunkOverlap self))
               (Z.min (Z.of_nat i * (Fixed.chunkSize self - Fixed.chunkOverlap self)
                       + Fixed.chunkSize self) (len text)))
        (seq 0 (Z.to_nat ((len text + (Fixed.chunkSize self - Fixed.chunkOverlap self) - 1)
                          / (Fixed.chunkSize self - Fixed.chunkOverlap self)))).
Proof.
  intros self text r Hs Hr.
  exact (fixed_closed_form self text r Hs Hr).
Qed.

Lemma Fixed_splitText_windows_witness :
  map S_ ["abcd"; "defg"; "ghij"; "j"]%string =
  map (fun i : nat => js_slice (S_ "abcdefghij") (Z.of_nat i * (4 - 1))
                        (Z.min (Z.of_nat i * (4 - 1) + 4) (len (S_ "abcdefghij"))))
      (seq 0 (Z.to_nat ((len (S_ "abcdefghij") + (4 - 1) - 1) / (4 - 1)))).
Proof.
  apply (Fixed_splitText_windows {| Fixed.chunkSize := 4; Fixed.chunkOverlap := 1 |}
           (S_ "abcdefghij")).
  - simpl; lia.
  - exists 10%nat; vm_compute; reflexivity.
Defined.

(** X2. Round trip: with [chunkOverlap = 0] and [chunkSize >= 1], the chunks
    of [FixedSizeTextSplitter.splitText] concatenate back to the input text. *)
Theorem Fixed_splitText_concat : forall self text r,
  Fixed.chunkOverlap self = 0 -> 1 <= Fixed.chunkSize self ->
  Fixed.splitText_returns self text r ->
  concat r = text.
Proof.
  intros self text r Hco Hcs [fuel Hf].
  assert (Hs : 1 <= Fixed.chunkSize self - Fixed.chunkOverlap self) by lia.
  destruct (splitLoop_closed self text fuel O r Hs (or_introl eq_refl) Hf) as (m & -> & H1 & _).
  rewrite fixed_concat_windows by assumption.
  rewrite Hco, Z.sub_0_r in H1.
  rewrite Z.min_r by exact H1.
  apply firstn_all2; unfold len; lia.
Qed.

Lemma Fixed_splitText_concat_witness :
  concat (map S_ ["hel"; "lo "; "wor"; "ld"]%string) = S_ "hello world".
Proof.
  apply (Fixed_splitText_concat {| Fixed.chunkSize := 3; Fixed.chunkOverlap := 0 |}).
  - reflexivity.
  - simpl; lia.
  - exists 10%nat; vm_compute; reflexivity.
Defined.

(** ** InMemoryCache: how the operations compose *)

Section CacheMore.
Variable T : Type.

Lemma map_get_set_other : forall (m : Cache.store T) k k' e, k' <> k ->
  Cache.map_get T (Cache.map_set T m k e) k' = Cache.map_get T m k'.
Proof.
  induction m as [|[k0 e0] m IH]; intros k k' e Hne; simpl.
  - destruct (str_eqb k k') eqn:E; [apply str_eqb_spec in E; congruence | reflexivity].
  - destruct (str_eqb k0 k) eqn:E0; simpl.
    + apply str_eqb_spec in E0; subst k0.
      destruct (str_eqb k k') eqn:E; [apply str_eqb_spec in E; congruence | reflexivity].
    + destruct (str_eqb k0 k'); [reflexivity | apply IH; exact Hne].
Qed.

Lemma map_get_delete_other : forall (m : Cache.store T) k k', k' <> k ->
  Cache.map_get T (Cache.map_delete T m k) k' = Cache.map_get T m k'.
Proof.
  induction m as [|[k0 e0] m IH]; intros k k' Hne; simpl; [reflexivity|].
  destruct (str_eqb k0 k) eqn:E0; simpl.
  - apply str_eqb_spec in E0; subst k0.
    destruct (str_eqb k k') eqn:E; [apply str_eqb_spec in E; congruence | apply IH; exact Hne].
  - destruct (str_eqb k0 k'); [reflexivity | apply IH; exact Hne].
Qed.

Lemma map_set_length : forall (m : Cache.store T) k e,
  length (Cache.map_set T m k e) =
  match Cache.map_get T m k with Some _ => length m | None => S (length m) end.
Proof.
  induction m as [|[k0 e0] m IH]; intros k e; simpl; [reflexivity|].
  destruct (str_eqb k0 k); simpl; [reflexivity|].
  rewrite IH; destruct (Cache.map_get T m k); reflexivity.
Qed.

Lemma map_delete_nodup : forall (m : Cache.store T) k,
  NoDup (map fst m) -> NoDup (map fst (Cache.map_delete T m k)).
Proof.
  induction m as [|[k0 e0] m IH]; intros k Hnd; simpl; [constructor|].
  inversion Hnd as [|? ? Hnin Hnd']; subst.
  destruct (negb (str_eqb k0 k)); simpl; [|apply IH; exact Hnd'].
  constructor; [|apply IH; exact Hnd'].
  intros Hin; apply Hnin.
  unfold Cache.map_delete in Hin; rewrite in_map_iff in Hin.
  destruct Hin as [[k1 e1] [Hk Hin]]; simpl in Hk; subst k1.
  apply filter_In in Hin as [Hin _]; apply (in_map fst _ _ Hin).
Qed.

(** The result of [get] for one key, seen through [map_get]: it depends on the
    map only through the entry of that key. *)
Lemma get_fst_map_get : forall (m1 m2 : Cache.store T) k t,
  Cache.map_get T m1 k = Cache.map_get T m2 k ->
  fst (Cache.get T m1 k t) = fst (Cache.get T m2 k t).
Proof.
  intros m1 m2 k t H; unfold Cache.get; rewrite H.
  destruct (Cache.map_get T m2 k) as [item|]; [|reflexivity].
  destruct (_ && _); reflexivity.
Qed.

End CacheMore.

(** X3. [set(key, value, ttl)] grows [size()] by one when the map has no entry
    for [key] and leaves it unchanged when it has one (the entry is
    overwritten in place). *)
Theorem Cache_set_size : forall (T : Type) (m : Cache.store T) key v ttl now,
  Cache.size T (Cache.set T m key v ttl now) =
  match Cache.map_get T m key with
  | Some _ => Cache.size T m
  | None => S (Cache.size T m)
  end.
Proof.
  intros T m key v ttl now; unfold Cache.size, Cache.set; apply map_set_length.
Qed.

(** X4. Keys are independent: [set] and [delete] on [key] do not change what
    [get] returns for any other key, at any time; after [delete(key)],
    [get(key)] returns [null]. *)
Theorem Cache_ops_other_keys : forall (T : Type) (m : Cache.store T) key key' v ttl now t,
  (key' <> key ->
     fst (Cache.get T (Cache.set T m key v ttl now) key' t) = fst (Cache.get T m key' t) /\
     fst (Cache.get T (Cache.delete T m key) key' t) = fst (Cache.get T m key' t)) /\
  fst (Cache.get T (Cache.delete T m key) key t) = None.
Proof.
  intros T m key key' v ttl now t; split.
  - intros Hne; split; apply get_fst_map_get;
      [apply map_get_set_other | apply map_get_delete_other]; exact Hne.
  - unfold Cache.get, Cache.delete; rewrite map_get_delete_same; reflexivity.
Qed.

Lemma Cache_ops_other_keys_witness :
  S_ "b" <> S_ "a" /\
  fst (Cache.get nat (Cache.set nat [(S_ "b", {| Cache.value := 2%nat; Cache.expiry := None |})]
                       (S_ "a") 1%nat None 0) (S_ "b") 5) =
  fst (Cache.get nat [(S_ "b", {| Cache.value := 2%nat; Cache.expiry := None |})] (S_ "b") 5).
Proof.
  assert (Hne : S_ "b" <> S_ "a") by discriminate.
  split; [exact Hne|].
  exact (proj1 (proj1 (Cache_ops_other_keys nat
           [(S_ "b", {| Cache.value := 2%nat; Cache.expiry := None |})]
           (S_ "a") (S_ "b") 1%nat None 0 5) Hne)).
Defined.



(** X6. Absence is kept: once [get(key)] has returned [null], a following
    [get(key)], at any time, returns [null] again (an expired entry is removed,
    not revived). *)
Theorem Cache_get_null_sticky : forall (T : Type) (m : Cache.store T) key now now',
  fst (Cache.get T m key now) = None ->
  fst (Cache.get T (snd (Cache.get T m key now)) key now') = None.
Proof.
  intros T m key now now'; unfold Cache.get.
  destruct (Cache.map_get T m key) as [item|] eqn:E; simpl.
  - destruct (_ && _); simpl; [|discriminate].
    intros _; rewrite map_get_delete_same; reflexivity.
  - intros _; rewrite E; reflexivity.
Qed.

Lemma Cache_get_null_sticky_witness :
  fst (Cache.get nat (snd (Cache.get nat (Cache.set nat [] (S_ "k") 1%nat (Some 1) 0) (S_ "k") 1001))
         (S_ "k") 0) = None.
Proof. apply (Cache_get_null_sticky nat _ _ 1001 0); reflexivity. Defined.

(** ** RecursiveCharacterTextSplitter: blank input, trimmed chunks, chunk count *)

Lemma mergeSplits_closed : forall (P : str -> Prop) cs sep newSeps rec splits cur fin,
  (forall a b, P a -> P b -> P (a ++ sep ++ b)) ->
  (forall piece, In piece splits -> nonempty (trim piece) = true ->
     P (trim piece) /\ forall c, In c (rec (trim piece)) -> P c) ->
  (nonempty cur = true -> P cur) ->
  Forall P fin ->
  Forall P (Recursive.mergeSplits cs sep newSeps rec splits cur fin).
Proof.
  intros P cs sep newSeps rec splits; induction splits as [|piece splits IH];
    intros cur fin Hjoin Hpieces Hcur Hfin; simpl.
  - destruct (nonempty cur) eqn:E; auto.
    apply Forall_app; split; auto.
  - assert (Hrest : forall p, In p splits -> nonempty (trim p) = true ->
              P (trim p) /\ forall c, In c (rec (trim p)) -> P c)
      by (intros p Hin; apply Hpieces; right; exact Hin).
    destruct (nonempty (trim piece)) eqn:Et; simpl; [|apply IH; auto].
    destruct (Hpieces piece (or_introl eq_refl) Et) as [Hp Hrec].
    assert (Htest : P (if nonempty cur then cur ++ sep ++ trim piece else trim piece)).
    { destruct (nonempty cur) eqn:Ec; [apply Hjoin; auto | exact Hp]. }
    assert (Hfin' : Forall P (if nonempty cur then fin ++ [cur] else fin)).
    { destruct (nonempty cur); auto; apply Forall_app; split; auto. }
    destruct (_ <=? cs).
    + apply IH; auto.
    + destruct (_ && _)%bool.
      * apply IH; auto; [discriminate|].
        apply Forall_app; split; auto; apply Forall_forall; exact Hrec.
      * apply IH; auto.
Qed.

Lemma mergeSplits_blank : forall cs sep newSeps rec splits cur fin,
  (forall piece, In piece splits -> trim piece = []) ->
  Recursive.mergeSplits cs sep newSeps rec splits cur fin =
  (if nonempty cur then fin ++ [cur] else fin).
Proof.
  intros cs sep newSeps rec splits; induction splits as [|p splits IH];
    intros cur fin H; simpl; [reflexivity|].
  rewrite (H p (or_introl eq_refl)); simpl.
  apply IH; intros q Hq; apply H; right; exact Hq.
Qed.

Lemma overlapFrom_length : forall co prev l, length (Recursive.overlapFrom co prev l) = length l.
Proof. intros co prev l; revert prev; induction l as [|c l IH]; intros prev; simpl; auto. Qed.

Lemma applyOverlap_length : forall self l, length (Recursive.applyOverlap self l) = length l.
Proof.
  intros self l; unfold Recursive.applyOverlap.
  destruct (_ || _)%bool; [reflexivity|].
  destruct l as [|c l]; simpl; [reflexivity|]; rewrite overlapFrom_length; reflexivity.
Qed.

Lemma applyOverlap_nil : forall self, Recursive.applyOverlap self [] = [].
Proof. intros self; unfold Recursive.applyOverlap; simpl; rewrite orb_true_r; reflexivity. Qed.

Lemma applyOverlap_zero : forall self l,
  Recursive.chunkOverlap self = 0 -> Recursive.applyOverlap self l = l.
Proof. intros self l H; unfold Recursive.applyOverlap; rewrite H; reflexivity. Qed.

Lemma mergeSplits_length : forall cs sep newSeps rec1 rec2 splits cur fin1 fin2,
  (forall t, length (rec1 t) = length (rec2 t)) ->
  length fin1 = length fin2 ->
  length (Recursive.mergeSplits cs sep newSeps rec1 splits cur fin1) =
  length (Recursive.mergeSplits cs sep newSeps rec2 splits cur fin2).
Proof.
  intros cs sep newSeps rec1 rec2 splits; induction splits as [|p splits IH];
    intros cur fin1 fin2 Hrec Hfin; simpl.
  - destruct (nonempty cur); [rewrite !length_app, Hfin|]; auto.
  - destruct (nonempty (trim p)); simpl; [|apply IH; auto].
    destruct (_ <=? cs); [apply IH; auto|].
    destruct (_ && _)%bool; apply IH; auto;
      destruct (nonempty cur); rewrite ?length_app, ?Hfin, ?Hrec; auto.
Qed.

Lemma trim_start_hd : forall s d, trim_start s <> [] -> is_ws (hd d (trim_start s)) = false.
Proof.
  induction s as [|c s IH]; intros d H; simpl in *; [contradiction|].
  destruct (is_ws c) eqn:E; [apply IH; exact H | exact E].
Qed.

Lemma hd_app_l : forall (A : Type) (d : A) l l', l <> [] -> hd d (l ++ l') = hd d l.
Proof. intros A d [|x l] l' H; [contradiction | reflexivity]. Qed.

(** A chunk with no white space at either end: [chunk.trim() === chunk], non-empty. *)
Definition tight (c : str) : Prop :=
  c <> [] /\ is_ws (hd "a"%char c) = false /\ is_ws (hd "a"%char (rev c)) = false.

Lemma trim_tight : forall s, nonempty (trim s) = true -> tight (trim s).
Proof.
  intros s Hne; unfold trim in *.
  destruct (trim_start_suffix (rev (trim_start s))) as [b Hb].
  set (u := trim_start (rev (trim_start s))) in *.
  assert (Hu : u <> []) by (intros E; rewrite E in Hne; discriminate).
  assert (Hru : rev u <> []) by (intros E; apply Hu; rewrite <- (rev_involutive u), E; reflexivity).
  split; [exact Hru|]; split.
  - assert (Ht : trim_start s = rev u ++ rev b).
    { rewrite <- rev_app_distr, <- Hb, rev_involutive; reflexivity. }
    rewrite <- (hd_app_l _ _ _ (rev b) Hru), <- Ht.
    apply trim_start_hd; rewrite Ht; intros E; apply Hru.
    destruct (rev u); [reflexivity | discriminate].
  - rewrite rev_involutive; apply trim_start_hd; exact Hu.
Qed.

Lemma tight_join : forall sep a b, tight a -> tight b -> tight (a ++ sep ++ b).
Proof.
  intros sep a b [Ha [Ha1 Ha2]] [Hb [Hb1 Hb2]]; split; [|split].
  - destruct a; [contradiction | discriminate].
  - rewrite hd_app_l by exact Ha; exact Ha1.
  - rewrite !rev_app_distr, <- app_assoc, hd_app_l; [exact Hb2|].
    intros E; apply Hb; rewrite <- (rev_involutive b), E; reflexivity.
Qed.

Lemma tight_trim : forall c, tight c -> trim c = c.
Proof.
  intros c [Hc [H1 H2]]; unfold trim.
  assert (E1 : trim_start c = c) by (destruct c; simpl in *; [contradiction | rewrite H1; reflexivity]).
  rewrite E1.
  assert (E2 : trim_start (rev c) = rev c)
    by (destruct (rev c); simpl in *; [reflexivity | rewrite H2; reflexivity]).
  rewrite E2, rev_involutive; reflexivity.
Qed.

Lemma Recursive_split_tight : forall fuel self text seps,
  Recursive.chunkOverlap self = 0 ->
  Forall tight (Recursive.recursiveSplit fuel self text seps).
Proof.
  induction fuel as [|fuel IH]; intros self text seps Hov; simpl; [constructor|].
  destruct (Recursive.chooseSeparator text seps) as [separator newSeps].
  rewrite applyOverlap_zero by exact Hov.
  apply mergeSplits_closed.
  - apply tight_join.
  - intros piece _ Hne; split; [apply trim_tight; exact Hne|].
    apply Forall_forall, IH; exact Hov.
  - intros H; discriminate.
  - constructor.
Qed.

Lemma all_ws_trim : forall s, (forall c, In c s -> is_ws c = true) -> trim s = [].
Proof.
  intros s H; unfold trim.
  assert (E : trim_start s = []).
  { induction s as [|c s IH]; simpl; [reflexivity|].
    rewrite (H c (or_introl eq_refl)); apply IH; intros d Hd; apply H; right; exact Hd. }
  rewrite E; reflexivity.
Qed.

Lemma Recursive_split_blank : forall fuel self text seps,
  (forall c, In c text -> is_ws c = true) ->
  Recursive.recursiveSplit fuel self text seps = [].
Proof.
  intros [|fuel] self text seps H; simpl; [reflexivity|].
  assert (Hp := splits_pieces text seps).
  destruct (Recursive.chooseSeparator text seps) as [separator newSeps]; simpl in Hp.
  rewrite mergeSplits_blank; [apply applyOverlap_nil|].
  intros piece Hin; apply all_ws_trim; intros c Hc.
  destruct (proj1 (Hp piece Hin)) as (a & b & E).
  apply H; rewrite E; apply in_or_app; right; apply in_or_app; left; exact Hc.
Qed.

Lemma Recursive_split_length : forall fuel s1 s2 text seps,
  Recursive.chunkSize s1 = Recursive.chunkSize s2 ->
  length (Recursive.recursiveSplit fuel s1 text seps) =
  length (Recursive.recursiveSplit fuel s2 text seps).
Proof.
  induction fuel as [|fuel IH]; intros s1 s2 text seps Hcs; simpl; [reflexivity|].
  destruct (Recursive.chooseSeparator text seps) as [separator newSeps].
  rewrite !applyOverlap_length, Hcs.
  apply mergeSplits_length; [|reflexivity].
  intros t; apply IH; exact Hcs.
Qed.

(** X7. [RecursiveCharacterTextSplitter.splitText] returns no chunk for an
    empty text or a text made only of white space, whatever the
    configuration. *)
Theorem Recursive_blank_text : forall self text,
  (forall c, In c text -> is_ws c = true) ->
  Recursive.splitText self text = [].
Proof.
  intros self text H; unfold Recursive.splitText; apply Recursive_split_blank; exact H.
Qed.

Lemma Recursive_blank_text_witness :
  Recursive.splitText (Recursive.create 10 2 None)
    [" "%char; ascii_of_nat 10; ascii_of_nat 9; " "%char] = [].
Proof.
  apply Recursive_blank_text; intros c Hc; simpl in Hc.
  destruct Hc as [<- | [<- | [<- | [<- | []]]]]; reflexivity.
Defined.

(** X8. With [chunkOverlap = 0], every chunk of
    [RecursiveCharacterTextSplitter.splitText] is non-empty and has no white
    space at either end ([chunk.trim() === chunk]). *)
Theorem Recursive_chunks_trimmed : forall cs seps text c,
  In c (Recursive.splitText (Recursive.create cs 0 seps) text) ->
  c <> [] /\ trim c = c.
Proof.
  intros cs seps text c Hc.
  assert (Ht := Recursive_split_tight (S (length (Recursive.separators (Recursive.create cs 0 seps))))
                  (Recursive.create cs 0 seps) text
                  (Recursive.separators (Recursive.create cs 0 seps)) eq_refl).
  rewrite Forall_forall in Ht; specialize (Ht c Hc).
  split; [apply (proj1 Ht) | apply tight_trim; exact Ht].
Qed.

Lemma Recursive_chunks_trimmed_witness :
  S_ "three four" <> [] /\ trim (S_ "three four") = S_ "three four".
Proof.
  apply (Recursive_chunks_trimmed 12 None (S_ " one two  three four five ")).
  vm_compute; auto.
Defined.

(** X9. The [chunkOverlap] setting never changes how many chunks
    [RecursiveCharacterTextSplitter.splitText] returns: the overlap only
    prefixes chunks, at every level of the recursion, with text of their
    predecessors. *)
Theorem Recursive_overlap_count : forall cs co seps text,
  length (Recursive.splitText (Recursive.create cs co seps) text) =
  length (Recursive.splitText (Recursive.create cs 0 seps) text).
Proof.
  intros cs co seps text; unfold Recursive.splitText.
  apply Recursive_split_length; reflexivity.
Qed.

(** ** KeywordReranker: keywords, sorting, plain keywords *)

Lemma splitWsAux_pieces : forall s cur inRun pre w,
  (forall c, In c cur -> is_ws c = false) ->
  In w (Keyword.splitWsAux s cur inRun) ->
  (forall c, In c w -> is_ws c = false) /\ substr w (pre ++ cur ++ s).
Proof.
  induction s as [|c s IH]; intros cur inRun pre w Hcur Hw; simpl in Hw.
  - destruct Hw as [<- | []]; split; [exact Hcur|].
    exists pre, []; reflexivity.
  - destruct (is_ws c) eqn:Ec.
    + assert (Hrest : In w (Keyword.splitWsAux s [] true) ->
                (forall c, In c w -> is_ws c = false) /\ substr w (pre ++ cur ++ c :: s)).
      { intros Hin; destruct (IH [] true (pre ++ cur ++ [c]) w ltac:(intros ? [])
                                Hin) as [H1 H2].
        split; [exact H1|]; rewrite <- !app_assoc in H2; exact H2. }
      destruct inRun; [apply Hrest; exact Hw|].
      destruct Hw as [<- | Hw]; [|apply Hrest; exact Hw].
      split; [exact Hcur | exists pre, (c :: s); reflexivity].
    + destruct (IH (cur ++ [c]) false pre w) as [H1 H2]; [|exact Hw|].
      * intros d Hd; apply in_app_or in Hd as [Hd | [<- | []]]; [apply Hcur; exact Hd | exact Ec].
      * split; [exact H1|]; rewrite <- app_assoc in H2; exact H2.
Qed.

Section KeywordLemmas.
Local Open Scope Q_scope.

Definition scoreGe (a b : Rerank.SearchResult) : Prop := Rerank.score b <= Rerank.score a.

Lemma insertDesc_perm : forall x l, Permutation (Rerank.insertDesc x l) (x :: l).
Proof.
  intros x l; induction l as [|y l IH]; simpl; [reflexivity|].
  destruct (Qle_bool (Rerank.score x) (Rerank.score y)); [|reflexivity].
  rewrite IH; apply perm_swap.
Qed.

Lemma sortDesc_fold_perm : forall l acc,
  Permutation (fold_left (fun acc x => Rerank.insertDesc x acc) l acc) (rev l ++ acc).
Proof.
  induction l as [|x l IH]; intros acc; simpl; [reflexivity|].
  rewrite IH, insertDesc_perm, <- app_assoc; reflexivity.
Qed.

Lemma sortDesc_perm : forall l, Permutation (Rerank.sortDesc l) l.
Proof.
  intros l; unfold Rerank.sortDesc; rewrite sortDesc_fold_perm, app_nil_r.
  symmetry; apply Permutation_rev.
Qed.

Lemma insertDesc_sorted : forall x l, Sorted scoreGe l -> Sorted scoreGe (Rerank.insertDesc x l).
Proof.
  intros x l; induction l as [|y l IH]; intros H; simpl; [repeat constructor|].
  destruct (Qle_bool (Rerank.score x) (Rerank.score y)) eqn:E.
  - apply Sorted_inv in H as [Hl Hy].
    constructor; [apply IH; exact Hl|].
    destruct l as [|z l]; simpl.
    + constructor; unfold scoreGe; apply Qle_bool_iff; exact E.
    + destruct (Qle_bool (Rerank.score x) (Rerank.score z)); constructor;
        [apply HdRel_inv in Hy; exact Hy | unfold scoreGe; apply Qle_bool_iff; exact E].
  - constructor; [exact H|]; constructor; unfold scoreGe.
    apply Qlt_le_weak, Qnot_le_lt; intros Hle; apply Qle_bool_iff in Hle; congruence.
Qed.

Lemma sortDesc_sorted : forall l, Sorted scoreGe (Rerank.sortDesc l).
Proof.
  intros l; unfold Rerank.sortDesc.
  assert (G : forall acc, Sorted scoreGe acc ->
            Sorted scoreGe (fold_left (fun acc x => Rerank.insertDesc x acc) l acc)).
  { induction l as [|x l IH]; intros acc H; simpl; [exact H|].
    apply IH, insertDesc_sorted; exact H. }
  apply G; constructor.
Qed.

(** Sorting commutes with a rescoring that keeps every score up to [==]. *)
Lemma sortDesc_map_eqv : forall (f : Rerank.SearchResult -> Rerank.SearchResult) l,
  (forall r, Rerank.score (f r) == Rerank.score r) ->
  Rerank.sortDesc (map f l) = map f (Rerank.sortDesc l).
Proof.
  intros f l Hf.
  assert (Hins : forall x acc, Rerank.insertDesc (f x) (map f acc) = map f (Rerank.insertDesc x acc)).
  { intros x acc; induction acc as [|y acc IH]; simpl; [reflexivity|].
    assert (E : Qle_bool (Rerank.score (f x)) (Rerank.score (f y)) =
                Qle_bool (Rerank.score x) (Rerank.score y)).
    { destruct (Qle_bool (Rerank.score x) (Rerank.score y)) eqn:E1.
      - apply Qle_bool_iff; apply Qle_bool_iff in E1; rewrite !Hf; exact E1.
      - destruct (Qle_bool (Rerank.score (f x)) (Rerank.score (f y))) eqn:E2; [|reflexivity].
        apply Qle_bool_iff in E2; rewrite !Hf in E2; apply Qle_bool_iff in E2; congruence. }
    rewrite E; destruct (Qle_bool (Rerank.score x) (Rerank.score y)); simpl; [rewrite IH|];
      reflexivity. }
  assert (G : forall acc,
            fold_left (fun acc x => Rerank.insertDesc x acc) (map f l) (map f acc) =
            map f (fold_left (fun acc x => Rerank.insertDesc x acc) l acc)).
  { induction l as [|x l IH]; intros acc; simpl; [reflexivity|].
    rewrite Hins; apply IH. }
  apply (G []).
Qed.

End KeywordLemmas.

Lemma extractKeywords_In : forall text w, In w (Keyword.extractKeywords text) ->
  In w (Keyword.splitWs text) /\ (2 < length w)%nat /\ ~ In w Keyword.stopWords.
Proof.
  intros text w Hw; unfold Keyword.extractKeywords in Hw.
  set (l := filter _ _) in Hw.
  assert (Hl : In w l).
  { rewrite <- (firstn_skipn 10 l); apply in_or_app; left; exact Hw. }
  unfold l in Hl; apply filter_In in Hl as [Hin Hp].
  apply andb_prop in Hp as [H1 H2].
  split; [exact Hin|]; split; [apply Nat.ltb_lt; exact H1|].
  intros Hs; apply negb_true_iff in H2.
  assert (E : existsb (str_eqb w) Keyword.stopWords = true)
    by (apply existsb_exists; exists w; split; [exact Hs | apply str_eqb_refl]).
  congruence.
Qed.

(** Keywords made of ordinary pattern characters only: no [^ $ \ ( ) [ ] { } |],
    no quantifier and no [.]. *)
Definition plainChar (c : ascii) : bool :=
  (negb (Keyword.is_special c) && negb (Keyword.is_quantifier c) &&
   negb (Ascii.eqb c "."%char))%bool.

Lemma parseRx_plain : forall p prev acc, forallb plainChar p = true ->
  Keyword.parseRx p prev false acc = Keyword.RxOk (rev acc ++ map Keyword.RChar p).
Proof.
  induction p as [|c p IH]; intros prev acc H; simpl.
  - rewrite app_nil_r; reflexivity.
  - simpl in H; apply andb_prop in H as [Hc Hp]; unfold plainChar in Hc.
    destruct (Keyword.is_special c), (Keyword.is_quantifier c), (Ascii.eqb c "."%char);
      simpl in Hc; try discriminate.
    rewrite IH by exact Hp; simpl; rewrite <- app_assoc; reflexivity.
Qed.

Lemma matchAt_chars : forall kw s, Keyword.matchAt (map Keyword.RChar kw) s = prefixb kw s.
Proof.
  induction kw as [|c kw IH]; intros [|d s]; simpl; try reflexivity.
  rewrite Ascii.eqb_sym, IH; reflexivity.
Qed.

Lemma countMatches_chars : forall kw s skip, kw <> [] ->
  Keyword.countMatchesAux (map Keyword.RChar kw) s skip = KeywordSpec.occurrencesAux kw s skip.
Proof.
  intros kw s; induction s as [|c s IH]; intros skip Hkw; simpl.
  - destruct skip, kw; try contradiction; reflexivity.
  - destruct skip as [|k]; [|apply IH; exact Hkw].
    rewrite matchAt_chars, length_map.
    destruct (prefixb kw (c :: s)); rewrite IH by exact Hkw; reflexivity.
Qed.

Lemma fold_add : forall (g : str -> nat) kws a,
  fold_left (fun acc kw => (acc + g kw)%nat) kws a = (a + fold_left (fun acc kw => (acc + g kw)%nat) kws 0)%nat.
Proof.
  intros g kws; induction kws as [|kw kws IH]; intros a; simpl; [lia|].
  rewrite IH, (IH (g kw)); lia.
Qed.

Lemma keywordScore_plain : forall content kws,
  Forall (fun kw => kw <> [] /\ forallb plainChar kw = true) kws ->
  Keyword.keywordScore content kws =
  Keyword.Ok (fold_left (fun acc kw => (acc + KeywordSpec.occurrences kw content)%nat) kws O).
Proof.
  intros content kws; induction kws as [|kw kws IH]; intros H; [reflexivity|].
  inversion H as [|? ? [Hne Hp] Hrest]; subst.
  cbn [Keyword.keywordScore fold_left].
  unfold Keyword.compile; rewrite parseRx_plain by exact Hp; cbn [rev app].
  rewrite IH by exact Hrest; rewrite (fold_add _ kws (0 + _)).
  unfold Keyword.countMatches, KeywordSpec.occurrences at 1.
  rewrite countMatches_chars by exact Hne.
  f_equal; lia.
Qed.

Lemma rescoreAll_ok : forall kws results l,
  Keyword.rescoreAll kws results = Keyword.Ok l ->
  Forall2 (fun r0 r => Rerank.document r = Rerank.document r0 /\
             exists n, Rerank.score r = (Rerank.score r0 * (1 + inject_Z (Z.of_nat n) * (1#10)))%Q)
          results l.
Proof.
  intros kws results; induction results as [|r rest IH]; intros l H; simpl in H.
  - injection H as <-; constructor.
  - destruct (Keyword.keywordScore _ kws) as [n| |]; try discriminate.
    destruct (Keyword.rescoreAll kws rest) as [l'| |]; try discriminate.
    injection H as <-; constructor; [|apply IH; reflexivity].
    split; [reflexivity | exists n; reflexivity].
Qed.

Lemma rescoreAll_no_keywords : forall results,
  Keyword.rescoreAll [] results =
  Keyword.Ok (map (fun r => Rerank.withScore r
                     (Rerank.score r * (1 + inject_Z (Z.of_nat 0) * (1#10)))%Q) results).
Proof.
  induction results as [|r rest IH]; simpl; [reflexivity|].
  rewrite IH; reflexivity.
Qed.

(** X10. [KeywordReranker.extractKeywords] returns at most 10 keywords; each
    is longer than 2 characters, is not a stop word, contains no white space
    and occurs as a contiguous piece of the (lower-cased) query. *)
Theorem Keyword_extractKeywords_bounds : forall text,
  (length (Keyword.extractKeywords text) <= 10)%nat /\
  forall w, In w (Keyword.extractKeywords text) ->
    (2 < length w)%nat /\ ~ In w Keyword.stopWords /\
    (forall c, In c w -> is_ws c = false) /\ substr w text.
Proof.
  intros text; split.
  - unfold Keyword.extractKeywords; apply firstn_le_length.
  - intros w Hw; destruct (extractKeywords_In text w Hw) as [Hin [H1 H2]].
    destruct (splitWsAux_pieces text [] false [] w ltac:(intros ? []) Hin) as [H3 H4].
    split; [exact H1 | split; [exact H2 | split; [exact H3 | exact H4]]].
Qed.

Lemma Keyword_extractKeywords_bounds_witness :
  (2 < length (S_ "learning"))%nat /\ ~ In (S_ "learning") Keyword.stopWords /\
  (forall c, In c (S_ "learning") -> is_ws c = false) /\
  substr (S_ "learning") (S_ "the machine  learning of go").
Proof.
  apply (proj2 (Keyword_extractKeywords_bounds (S_ "the machine  learning of go"))).
  vm_compute; auto.
Defined.

(** X11. A query with no keyword (only stop words, words of at most 2
    characters, or white space) leaves every score unchanged (up to [==]):
    [KeywordReranker.rerank] then only sorts the results by their original
    score. *)
Theorem Keyword_rerank_no_keywords : forall query results,
  Keyword.extractKeywords (Keyword.toLowerCase query) = [] ->
  exists l, Keyword.rerank query results = Keyword.Ok l /\
    map Rerank.document l = map Rerank.document (Rerank.sortDesc results) /\
    Forall2 (fun a b => Rerank.score a == Rerank.score b)%Q l (Rerank.sortDesc results).
Proof.
  intros query results H; unfold Keyword.rerank; rewrite H, rescoreAll_no_keywords.
  set (f := fun r => Rerank.withScore r
                       (Rerank.score r * (1 + inject_Z (Z.of_nat 0) * (1#10)))%Q).
  assert (Hf : forall r, (Rerank.score (f r) == Rerank.score r)%Q)
    by (intros r; unfold f; simpl; ring).
  exists (Rerank.sortDesc (map f results)); split; [reflexivity|].
  rewrite sortDesc_map_eqv by exact Hf.
  split.
  - rewrite map_map; apply map_ext; intros r; reflexivity.
  - induction (Rerank.sortDesc results) as [|r l IH]; simpl; constructor; [apply Hf | exact IH].
Qed.

Lemma Keyword_rerank_no_keywords_witness :
  exists l, Keyword.rerank (S_ "Is it on") rrf_input = Keyword.Ok l /\
    map Rerank.document l = map Rerank.document (Rerank.sortDesc rrf_input) /\
    Forall2 (fun a b => Rerank.score a == Rerank.score b)%Q l (Rerank.sortDesc rrf_input).
Proof. apply Keyword_rerank_no_keywords; vm_compute; reflexivity. Defined.

(** X12. Whenever [KeywordReranker.rerank] fulfils, its list is sorted by
    non-increasing score, holds the same documents as the input (up to
    order), and each score is an input score times [1 + n * 0.1] for a match
    count [n]. *)
Theorem Keyword_rerank_ok_shape : forall query results l,
  Keyword.rerank query results = Keyword.Ok l ->
  Sorted (fun a b => Rerank.score b <= Rerank.score a)%Q l /\
  Permutation (map Rerank.document l) (map Rerank.document results) /\
  (forall r, In r l -> exists r0 n, In r0 results /\
     Rerank.document r = Rerank.document r0 /\
     Rerank.score r = (Rerank.score r0 * (1 + inject_Z (Z.of_nat n) * (1#10)))%Q).
Proof.
  intros query results l H; unfold Keyword.rerank in H.
  destruct (Keyword.rescoreAll _ results) as [l0| |] eqn:E; try discriminate.
  injection H as <-.
  assert (HF := rescoreAll_ok _ _ _ E).
  split; [apply sortDesc_sorted|]; split.
  - rewrite (Permutation_map Rerank.document (sortDesc_perm l0)).
    clear E; induction HF as [|r0 r rest l' [Hd _] _ IH]; simpl; [constructor|].
    rewrite Hd; constructor; exact IH.
  - intros r Hr; apply (Permutation_in _ (sortDesc_perm l0)) in Hr.
    clear E; induction HF as [|r0 r' rest l' [Hd [n Hn]] _ IH]; [contradiction|].
    destruct Hr as [<- | Hr].
    + exists r0, n; split; [left; reflexivity | split; assumption].
    + destruct (IH Hr) as (r1 & n1 & H1 & H2 & H3); exists r1, n1.
      split; [right; exact H1 | split; assumption].
Qed.

Lemma Keyword_rerank_ok_shape_witness :
  exists l, Keyword.rerank (S_ "machine learning") rrf_input = Keyword.Ok l /\
    Permutation (map Rerank.document l) (map Rerank.document rrf_input).
Proof.
  exists (match Keyword.rerank (S_ "machine learning") rrf_input with
          | Keyword.Ok l => l | _ => [] end).
  assert (H : Keyword.rerank (S_ "machine learning") rrf_input =
              Keyword.Ok (match Keyword.rerank (S_ "machine learning") rrf_input with
                          | Keyword.Ok l => l | _ => [] end)) by (vm_compute; reflexivity).
  split; [exact H | exact (proj1 (proj2 (Keyword_rerank_ok_shape _ _ _ H)))].
Defined.

(** X13. For keywords made of ordinary characters (no pattern metacharacter,
    quantifier or [.]), the regular expressions of [KeywordReranker.rerank]
    count exactly the non-overlapping substring occurrences: the reranker
    then agrees with the substring-counting reranker. *)
Theorem Keyword_rerank_plain_keywords : forall query results,
  Forall (fun kw => forallb plainChar kw = true)
         (Keyword.extractKeywords (Keyword.toLowerCase query)) ->
  Keyword.rerank query results = Keyword.Ok (KeywordSpec.rerank query results).
Proof.
  intros query results H.
  assert (H' : Forall (fun kw => kw <> [] /\ forallb plainChar kw = true)
                 (Keyword.extractKeywords (Keyword.toLowerCase query))).
  { rewrite Forall_forall in H |- *; intros kw Hkw; split; [|apply H; exact Hkw].
    destruct (extractKeywords_In _ kw Hkw) as [_ [Hl _]].
    intros ->; simpl in Hl; lia. }
  unfold Keyword.rerank, KeywordSpec.rerank.
  set (kws := Keyword.extractKeywords (Keyword.toLowerCase query)) in *.
  clearbody kws.
  assert (E : forall results, Keyword.rescoreAll kws results =
    Keyword.Ok (map (fun r => Rerank.withScore r (Rerank.score r * (1 + inject_Z (Z.of_nat
      (fold_left (fun acc kw => (acc + KeywordSpec.occurrences kw
          (Keyword.toLowerCase (Rerank.content (Rerank.document r))))%nat) kws O)) * (1#10)))%Q)
      results)).
  { intros l; induction l as [|r rest IH]; simpl; [reflexivity|].
    rewrite keywordScore_plain by exact H'; rewrite IH; reflexivity. }
  rewrite E; reflexivity.
Qed.

Lemma Keyword_rerank_plain_keywords_witness :
  Keyword.rerank (S_ "Machine learning") rrf_input =
  Keyword.Ok (KeywordSpec.rerank (S_ "Machine learning") rrf_input).
Proof. apply Keyword_rerank_plain_keywords; vm_compute; repeat constructor. Defined.

(** ** The two filter compilers: clause counts and presence *)

Lemma pushAll_count : forall (A : Type) g (acc : option (list A)) items,
  (g = false -> items = []) ->
  length (Filter.entries (Filter.pushAll g acc items)) =
  (length (Filter.entries acc) + length items)%nat.
Proof.
  intros A g acc items H; destruct g; simpl.
  - rewrite length_app; destruct acc; reflexivity.
  - rewrite (H eq_refl); simpl; lia.
Qed.

Lemma pushAll_isSome : forall (A : Type) g (acc : option (list A)) items,
  Filter.isSome (Filter.pushAll g acc items) = (g || Filter.isSome acc)%bool.
Proof. intros A [|] acc items; reflexivity. Qed.

Lemma isSome_entries : forall (A : Type) (o : option (list A)),
  Filter.isSome o = false -> Filter.entries o = [].
Proof. intros A [l|] H; [discriminate | reflexivity]. Qed.

Lemma nonEmptyList_entries : forall (A : Type) (o : option (list A)),
  Filter.nonEmptyList o = false -> Filter.entries o = [].
Proof. intros A [[|x l]|] H; try discriminate; reflexivity. Qed.

Ltac count_arm :=
  rewrite pushAll_count;
  [| intros Hg; rewrite ?length_map;
     first [ rewrite isSome_entries by exact Hg; reflexivity
           | match goal with
             | |- match ?o with Some _ => _ | None => _ end = [] =>
                 destruct o as [[|? ?]|]; [reflexivity | discriminate | reflexivity]
             end
           | idtac ] ].

(** X14. Both filter compilers emit the same number of clauses: [must] holds
    one clause per [equals], range and [in] entry plus one per [and] child,
    [should] one per [or] child, and [must_not] one clause when [not] is
    given. *)
Theorem Filter_clause_counts : forall f,
  let n_must := (length (Filter.entries (Filter.equals f)) +
                 length (Filter.entries (Filter.greaterThan f)) +
                 length (Filter.entries (Filter.lessThan f)) +
                 length (Filter.entries (Filter.greaterThanOrEqual f)) +
                 length (Filter.entries (Filter.lessThanOrEqual f)) +
                 length (Filter.entries (Filter.in_ f)) +
                 length (Filter.entries (Filter.and_ f)))%nat in
  let n_should := length (Filter.entries (Filter.or_ f)) in
  let n_not := if Filter.isSome (Filter.not_ f) then 1%nat else 0%nat in
  length (Filter.entries (Qdrant.must (Qdrant.toQdrantFilter f))) = n_must /\
  length (Filter.entries (Qdrant.should (Qdrant.toQdrantFilter f))) = n_should /\
  length (Filter.entries (Qdrant.must_not (Qdrant.toQdrantFilter f))) = n_not /\
  match OpenSearch.toOpenSearchFilter f with
  | OpenSearch.OSBool m s mn _ =>
      length (Filter.entries m) = n_must /\ length (Filter.entries s) = n_should /\
      length (Filter.entries mn) = n_not
  | _ => False
  end.
Proof.
  intros [eqs ands ors nt gts lts gtes ltes ins] n_must n_should n_not.
  unfold n_must, n_should, n_not; cbn [Qdrant.toQdrantFilter OpenSearch.toOpenSearchFilter
    Qdrant.must Qdrant.should Qdrant.must_not Filter.equals Filter.and_ Filter.or_ Filter.not_
    Filter.greaterThan Filter.lessThan Filter.greaterThanOrEqual Filter.lessThanOrEqual Filter.in_].
  unfold Qdrant.rangeClauses, OpenSearch.rangeClauses.
  repeat split.
  - do 7 count_arm; cbn [Filter.entries length]; rewrite ?length_map.
    destruct ands; simpl; rewrite ?length_map; lia.
  - count_arm; simpl; destruct ors; rewrite ?length_map; reflexivity.
  - destruct nt; reflexivity.
  - do 7 count_arm; cbn [Filter.entries length]; rewrite ?length_map.
    destruct ands; simpl; rewrite ?length_map; lia.
  - count_arm; simpl; destruct ors; rewrite ?length_map; reflexivity.
  - destruct nt; reflexivity.
Qed.

(** X15. Both filter compilers emit a clause list in the same cases: [must]
    exactly when some [equals], range or [in] arm is given or [and] is a
    non-empty list; [should] exactly when [or] is a non-empty list (the
    boolean-query dialect then, and only then, sets
    [minimum_should_match = 1]); [must_not] exactly when [not] is given.  An
    empty [and] or [or] list is ignored, as if absent. *)
Theorem Filter_clause_presence : forall f,
  let has_must := (Filter.isSome (Filter.equals f) || Filter.isSome (Filter.greaterThan f) ||
                   Filter.isSome (Filter.lessThan f) ||
                   Filter.isSome (Filter.greaterThanOrEqual f) ||
                   Filter.isSome (Filter.lessThanOrEqual f) || Filter.isSome (Filter.in_ f) ||
                   Filter.nonEmptyList (Filter.and_ f))%bool in
  Filter.isSome (Qdrant.must (Qdrant.toQdrantFilter f)) = has_must /\
  Filter.isSome (Qdrant.should (Qdrant.toQdrantFilter f)) = Filter.nonEmptyList (Filter.or_ f) /\
  Filter.isSome (Qdrant.must_not (Qdrant.toQdrantFilter f)) = Filter.isSome (Filter.not_ f) /\
  match OpenSearch.toOpenSearchFilter f with
  | OpenSearch.OSBool m s mn msm =>
      Filter.isSome m = has_must /\ Filter.isSome s = Filter.nonEmptyList (Filter.or_ f) /\
      Filter.isSome mn = Filter.isSome (Filter.not_ f) /\
      msm = (if Filter.nonEmptyList (Filter.or_ f) then Some 1 else None)
  | _ => False
  end.
Proof.
  intros [eqs ands ors nt gts lts gtes ltes ins] has_must; unfold has_must.
  cbn [Qdrant.toQdrantFilter OpenSearch.toOpenSearchFilter
    Qdrant.must Qdrant.should Qdrant.must_not Filter.equals Filter.and_ Filter.or_ Filter.not_
    Filter.greaterThan Filter.lessThan Filter.greaterThanOrEqual Filter.lessThanOrEqual Filter.in_].
  rewrite !pushAll_isSome.
  destruct (Filter.isSome eqs), (Filter.isSome gts), (Filter.isSome lts), (Filter.isSome gtes),
    (Filter.isSome ltes), (Filter.isSome ins), (Filter.nonEmptyList ands),
    (Filter.nonEmptyList ors), nt; repeat split.
Qed.

(** ** MockEmbeddingModel.hashString *)

(** The 31-polynomial of the code units, over unbounded integers. *)
Definition polyHash (s : str) : Z :=
  fold_left (fun h c => 31 * h + Z.of_nat (nat_of_ascii c)) s 0.

Lemma toInt32_plus_k : forall x j, Embedding.toInt32 (x + j * 2 ^ 32) = Embedding.toInt32 x.
Proof.
  intros x j; unfold Embedding.toInt32.
  replace (x + j * 2 ^ 32 + 2 ^ 31) with (x + 2 ^ 31 + j * 2 ^ 32) by ring.
  rewrite Z_mod_plus_full; reflexivity.
Qed.

Lemma toInt32_ex : forall x, exists j, Embedding.toInt32 x = x + j * 2 ^ 32.
Proof.
  intros x; unfold Embedding.toInt32.
  exists (- ((x + 2 ^ 31) / 2 ^ 32)).
  rewrite Z.mod_eq by lia; ring.
Qed.

Lemma toInt32_range : forall x, - 2 ^ 31 <= Embedding.toInt32 x < 2 ^ 31.
Proof.
  intros x; unfold Embedding.toInt32.
  assert (H := Z.mod_pos_bound (x + 2 ^ 31) (2 ^ 32) ltac:(lia)); lia.
Qed.

Lemma hashStep_int32 : forall h c,
  Embedding.hashStep (Embedding.toInt32 h) c =
  Embedding.toInt32 (31 * h + Z.of_nat (nat_of_ascii c)).
Proof.
  intros h c; unfold Embedding.hashStep; rewrite Z.land_diag, Z.shiftl_mul_pow2 by lia.
  destruct (toInt32_ex h) as [j1 E1].
  assert (E2 : Embedding.toInt32 (Embedding.toInt32 h) = Embedding.toInt32 h)
    by (rewrite E1 at 1; rewrite toInt32_plus_k; reflexivity).
  rewrite E2, E1.
  destruct (toInt32_ex ((h + j1 * 2 ^ 32) * 2 ^ 5)) as [j2 E3]; rewrite E3.
  replace ((h + j1 * 2 ^ 32) * 2 ^ 5 + j2 * 2 ^ 32 - (h + j1 * 2 ^ 32) +
           Z.of_nat (nat_of_ascii c))
    with (31 * h + Z.of_nat (nat_of_ascii c) + (j2 + 31 * j1) * 2 ^ 32) by ring.
  apply toInt32_plus_k.
Qed.

Lemma hash_fold : forall s h,
  fold_left Embedding.hashStep s (Embedding.toInt32 h) =
  Embedding.toInt32 (fold_left (fun h c => 31 * h + Z.of_nat (nat_of_ascii c)) s h).
Proof.
  induction s as [|c s IH]; intros h; simpl; [reflexivity|].
  rewrite hashStep_int32; apply IH.
Qed.

Lemma hashString_poly : forall s,
  Embedding.hashString s = Z.abs (Embedding.toInt32 (polyHash s)).
Proof.
  intros s; unfold Embedding.hashString, polyHash.
  change 0 with (Embedding.toInt32 0) at 1; apply f_equal, hash_fold.
Qed.

Lemma polyHash_app : forall u v,
  polyHash (u ++ v) =
  fold_left (fun h c => 31 * h + Z.of_nat (nat_of_ascii c)) v (polyHash u).
Proof. intros u v; unfold polyHash; apply fold_left_app. Qed.

(** X16. [MockEmbeddingModel.hashString] is the absolute value of the 32-bit
    wrap-around of the polynomial hash [sum c_i * 31^(n-1-i)] of the code
    units (the hash of Java's [String.hashCode]); the seed lies in
    [[0, 2^31]]. *)
Theorem Embedding_hashString_closed_form : forall s,
  Embedding.hashString s = Z.abs (Embedding.toInt32 (polyHash s)) /\
  0 <= Embedding.hashString s <= 2 ^ 31.
Proof.
  intros s; rewrite hashString_poly; split; [reflexivity|].
  assert (H := toInt32_range (polyHash s)); lia.
Qed.

(** X17. Distinct texts share a seed, hence an embedding: replacing a
    two-character piece ["Aa"] by ["BB"] anywhere in a text leaves
    [hashString] unchanged, so [embedText] returns the same vector for both
    texts, whatever the vector generator. *)
Theorem Embedding_embedText_collision : forall (V : Type) (gen : Z -> V) u w,
  Embedding.hashString (u ++ S_ "Aa" ++ w) = Embedding.hashString (u ++ S_ "BB" ++ w) /\
  Embedding.embedText V gen (u ++ S_ "Aa" ++ w) = Embedding.embedText V gen (u ++ S_ "BB" ++ w).
Proof.
  intros V gen u w.
  assert (H : Embedding.hashString (u ++ S_ "Aa" ++ w) = Embedding.hashString (u ++ S_ "BB" ++ w)).
  { assert (E : forall h,
      fold_left (fun h c => 31 * h + Z.of_nat (nat_of_ascii c)) (S_ "Aa") h =
      fold_left (fun h c => 31 * h + Z.of_nat (nat_of_ascii c)) (S_ "BB") h)
      by (intros h; unfold S_; cbn [list_ascii_of_string fold_left];
          change (Z.of_nat (nat_of_ascii "A"%char)) with 65;
          change (Z.of_nat (nat_of_ascii "a"%char)) with 97;
          change (Z.of_nat (nat_of_ascii "B"%char)) with 66; ring).
    rewrite !hashString_poly, !polyHash_app, !fold_left_app, E; reflexivity. }
  split; [exact H | unfold Embedding.embedText; rewrite H; reflexivity].
Qed.

(** ** IngestionPipeline: chunk records *)

Section PipelineLemmas.
Import Server Pipeline.

Lemma objGet_set_same : forall o k v, objGet (objSet o k v) k = Some v.
Proof.
  induction o as [|[k' v'] o IH]; intros k v; simpl; [rewrite str_eqb_refl; reflexivity|].
  destruct (str_eqb k' k) eqn:E; simpl; [rewrite str_eqb_refl; reflexivity|].
  rewrite E; apply IH.
Qed.

Lemma objGet_set_other : forall o k k' v, k' <> k -> objGet (objSet o k v) k' = objGet o k'.
Proof.
  induction o as [|[k0 v0] o IH]; intros k k' v Hne; simpl.
  - destruct (str_eqb k k') eqn:E; [apply str_eqb_spec in E; congruence | reflexivity].
  - destruct (str_eqb k0 k) eqn:E0; simpl.
    + apply str_eqb_spec in E0; subst k0.
      destruct (str_eqb k k') eqn:E; [apply str_eqb_spec in E; congruence | reflexivity].
    + destruct (str_eqb k0 k'); [reflexivity | apply IH; exact Hne].
Qed.

Lemma chunkDocuments_nth : forall d m total chunks idx i,
  nth_error (chunkDocuments d m total idx chunks) i =
  option_map (fun chunkText =>
    {| id := d ++ S_ "_chunk_" ++ num (idx + Z.of_nat i);
       content := chunkText;
       chunkIndex := idx + Z.of_nat i;
       sourceDocumentId := d;
       metadata := objSet (objSet (spread m) (S_ "chunkIndex") (JNum (idx + Z.of_nat i)))
                     (S_ "totalChunks") (JNum total) |}) (nth_error chunks i).
Proof.
  intros d m total chunks; induction chunks as [|c chunks IH]; intros idx [|i]; simpl;
    try reflexivity.
  - rewrite Z.add_0_r; reflexivity.
  - rewrite IH, Zpos_P_of_succ_nat.
    replace (idx + Z.succ (Z.of_nat i)) with (idx + 1 + Z.of_nat i) by lia; reflexivity.
Qed.

Lemma chunkDocuments_length : forall d m total idx chunks,
  length (chunkDocuments d m total idx chunks) = length chunks.
Proof. intros d m total idx chunks; revert idx; induction chunks; intros idx; simpl; auto. Qed.

Lemma chunkDocuments_content : forall d m total idx chunks,
  map content (chunkDocuments d m total idx chunks) = chunks.
Proof.
  intros d m total idx chunks; revert idx; induction chunks as [|c chunks IH]; intros idx;
    simpl; [reflexivity | rewrite IH; reflexivity].
Qed.

Lemma chunkDocuments_ids : forall d m total idx chunks x,
  In x (map id (chunkDocuments d m total idx chunks)) ->
  exists j, idx <= j /\ x = d ++ S_ "_chunk_" ++ num j.
Proof.
  intros d m total idx chunks; revert idx; induction chunks as [|c chunks IH];
    intros idx x Hx; simpl in Hx; [contradiction|].
  destruct Hx as [<- | Hx]; [exists idx; split; [lia | reflexivity]|].
  destruct (IH (idx + 1) x Hx) as (j & Hj & ->); exists j; split; [lia | reflexivity].
Qed.

Lemma chunkDocuments_nodup : forall d m total idx chunks,
  NoDup (map id (chunkDocuments d m total idx chunks)).
Proof.
  intros d m total idx chunks; revert idx; induction chunks as [|c chunks IH]; intros idx;
    simpl; constructor; [|apply IH].
  intros Hin; destruct (chunkDocuments_ids d m total (idx + 1) chunks _ Hin) as (j & Hj & E).
  apply app_inv_head in E; apply (app_inv_head (S_ "_chunk_")) in E; apply num_inj in E; lia.
Qed.

Lemma split_at_first : forall (c : ascii) a1 b1 a2 b2, ~ In c a1 -> ~ In c a2 ->
  a1 ++ c :: b1 = a2 ++ c :: b2 -> a1 = a2 /\ b1 = b2.
Proof.
  intros c a1; induction a1 as [|x a1 IH]; intros b1 [|y a2] b2 H1 H2 H; simpl in H.
  - injection H as ->; split; reflexivity.
  - injection H as -> H; exfalso; apply H2; left; reflexivity.
  - injection H as <- H; exfalso; apply H1; left; reflexivity.
  - injection H as -> H.
    destruct (IH b1 a2 b2 (fun h => H1 (or_intror h)) (fun h => H2 (or_intror h)) H) as [-> ->].
    split; reflexivity.
Qed.

Lemma ingestDocumentsFrom_ids : forall splitText uuid docs k x,
  In x (map id (ingestDocumentsFrom splitText uuid k docs)) ->
  exists k' j, (k <= k' < k + length docs)%nat /\ x = uuid k' ++ S_ "_chunk_" ++ num j.
Proof.
  intros splitText uuid docs; induction docs as [|[c md] docs IH]; intros k x Hx;
    simpl in Hx; [contradiction|].
  rewrite map_app in Hx; apply in_app_or in Hx as [Hx | Hx].
  - destruct (chunkDocuments_ids _ _ _ _ _ x Hx) as (j & _ & ->); exists k, j; split; [simpl; lia | reflexivity].
  - destruct (IH (S k) x Hx) as (k' & j & Hk & ->); exists k', j; split; [simpl; lia | reflexivity].
Qed.

End PipelineLemmas.

Lemma ingestDocumentsFrom_nodup : forall splitText uuid docs k,
  (forall k1 k2, (k <= k1 < k + length docs)%nat -> (k <= k2 < k + length docs)%nat ->
     uuid k1 = uuid k2 -> k1 = k2) ->
  (forall k', (k <= k' < k + length docs)%nat -> ~ In "_"%char (uuid k')) ->
  NoDup (map Pipeline.id (Pipeline.ingestDocumentsFrom splitText uuid k docs)).
Proof.
  intros splitText uuid docs; induction docs as [|[c md] docs IH]; intros k Hinj Hus;
    simpl; [constructor|].
  rewrite map_app; apply NoDup_app.
  - apply chunkDocuments_nodup.
  - apply IH.
    + intros k1 k2 H1 H2; apply Hinj; simpl; lia.
    + intros k' Hk; apply Hus; simpl; lia.
  - intros x Hx Hy.
    destruct (chunkDocuments_ids _ _ _ _ _ x Hx) as (j & _ & ->).
    destruct (ingestDocumentsFrom_ids splitText uuid docs (S k) _ Hy) as (k' & j' & Hk & E).
    destruct (split_at_first "_"%char (uuid k) _ (uuid k') _
                (Hus k ltac:(simpl; lia)) (Hus k' ltac:(simpl; lia)) E) as [Hu _].
    assert (k = k') by (apply Hinj; simpl; [lia | lia | exact Hu]); lia.
Qed.

(** X18. [IngestionPipeline.ingestDocument] hands the vector store one chunk
    record per chunk of the splitter, in order: the [i]-th has the [i]-th
    chunk text as content, [chunkIndex = i], the document's identifier as
    [sourceDocumentId] and the identifier [`${documentId}_chunk_${i}`]; the
    chunk identifiers are pairwise distinct. *)
Theorem Pipeline_ingestDocument_chunks : forall splitText documentId content metadata,
  let cs := Pipeline.ingestDocument splitText documentId content metadata in
  map Pipeline.content cs = splitText content /\
  NoDup (map Pipeline.id cs) /\
  (forall i c, nth_error cs i = Some c ->
     Pipeline.id c = documentId ++ S_ "_chunk_" ++ Server.num (Z.of_nat i) /\
     Pipeline.chunkIndex c = Z.of_nat i /\
     Pipeline.sourceDocumentId c = documentId).
Proof.
  intros splitText documentId content metadata cs; unfold cs, Pipeline.ingestDocument.
  split; [apply chunkDocuments_content|]; split; [apply chunkDocuments_nodup|].
  intros i c H; rewrite chunkDocuments_nth in H.
  destruct (nth_error (splitText content) i); simpl in H; [|discriminate].
  injection H as <-; split; [|split]; reflexivity.
Qed.

(** X19. The metadata of every chunk of [IngestionPipeline.ingestDocument] is
    the caller's metadata with [chunkIndex] set to the chunk's position and
    [totalChunks] to the number of chunks: these two override properties of
    the same name in the caller's metadata; every other property is the
    caller's. *)
Theorem Pipeline_chunk_metadata : forall splitText documentId content metadata i c,
  nth_error (Pipeline.ingestDocument splitText documentId content metadata) i = Some c ->
  Pipeline.objGet (Pipeline.metadata c) (S_ "chunkIndex") = Some (Server.JNum (Z.of_nat i)) /\
  Pipeline.objGet (Pipeline.metadata c) (S_ "totalChunks") =
    Some (Server.JNum (Z.of_nat (length (splitText content)))) /\
  (forall key, key <> S_ "chunkIndex" -> key <> S_ "totalChunks" ->
     Pipeline.objGet (Pipeline.metadata c) key = Pipeline.objGet (Pipeline.spread metadata) key).
Proof.
  intros splitText documentId content metadata i c H.
  unfold Pipeline.ingestDocument in H; rewrite chunkDocuments_nth in H.
  destruct (nth_error (splitText content) i); simpl in H; [|discriminate].
  injection H as <-; cbn [Pipeline.metadata].
  split; [|split].
  - rewrite objGet_set_other by discriminate; apply objGet_set_same.
  - apply objGet_set_same.
  - intros key H1 H2; rewrite !objGet_set_other by assumption; reflexivity.
Qed.

Definition noChunk : Pipeline.Chunk :=
  {| Pipeline.id := []; Pipeline.content := []; Pipeline.chunkIndex := 0;
     Pipeline.sourceDocumentId := []; Pipeline.metadata := [] |}.

Definition pipelineSplitter : str -> list str :=
  Recursive.splitText (Recursive.create 12 0 None).

Definition userMetadata : Pipeline.obj :=
  [(S_ "chunkIndex", Server.JStr (S_ "mine")); (S_ "lang", Server.JStr (S_ "en"))].

Lemma Pipeline_chunk_metadata_witness :
  let L := Pipeline.ingestDocument pipelineSplitter (S_ "doc") (S_ "one two three four five")
             (Some userMetadata) in
  let c := match nth_error L 1 with Some c => c | None => noChunk end in
  nth_error L 1 = Some c /\
  Pipeline.objGet (Pipeline.metadata c) (S_ "chunkIndex") = Some (Server.JNum 1).
Proof.
  intros L c.
  assert (H : nth_error L 1 = Some c) by (vm_compute; reflexivity).
  split; [exact H | exact (proj1 (Pipeline_chunk_metadata _ _ _ _ 1 c H))].
Defined.

(** X20. [IngestionPipeline.ingestFromFile] gives every chunk the metadata
    property [source] set to the file path (overriding a caller's [source]),
    next to [chunkIndex] and [totalChunks]. *)
Theorem Pipeline_ingestFromFile_source : forall splitText documentId filePath content metadata i c,
  nth_error (Pipeline.ingestFromFile splitText documentId filePath content metadata) i = Some c ->
  Pipeline.objGet (Pipeline.metadata c) (S_ "source") = Some (Server.JStr filePath) /\
  Pipeline.objGet (Pipeline.metadata c) (S_ "chunkIndex") = Some (Server.JNum (Z.of_nat i)).
Proof.
  intros splitText documentId filePath content metadata i c H.
  unfold Pipeline.ingestFromFile, Pipeline.ingestDocument in H; rewrite chunkDocuments_nth in H.
  destruct (nth_error (splitText content) i); simpl in H; [|discriminate].
  injection H as <-; cbn [Pipeline.metadata Pipeline.spread].
  split.
  - rewrite !objGet_set_other by discriminate; apply objGet_set_same.
  - rewrite objGet_set_other by discriminate; apply objGet_set_same.
Qed.

Lemma Pipeline_ingestFromFile_source_witness :
  let L := Pipeline.ingestFromFile pipelineSplitter (S_ "doc") (S_ "notes.txt")
             (S_ "one two three four five") None in
  let c := match nth_error L 0 with Some c => c | None => noChunk end in
  nth_error L 0 = Some c /\
  Pipeline.objGet (Pipeline.metadata c) (S_ "source") = Some (Server.JStr (S_ "notes.txt")).
Proof.
  intros L c.
  assert (H : nth_error L 0 = Some c) by (vm_compute; reflexivity).
  split; [exact H | exact (proj1 (Pipeline_ingestFromFile_source _ _ _ _ _ 0 c H))].
Defined.

(** X21. Across a batch, [IngestionPipeline.ingestDocuments] gives pairwise
    distinct chunk identifiers, provided the document identifiers drawn for
    the documents are pairwise distinct and contain no underscore (as the
    identifiers of [uuidv4()], made of hexadecimal digits and dashes). *)
Theorem Pipeline_ingestDocuments_unique_ids : forall splitText uuid docs,
  (forall k1 k2, (k1 < length docs)%nat -> (k2 < length docs)%nat ->
     uuid k1 = uuid k2 -> k1 = k2) ->
  (forall k, (k < length docs)%nat -> ~ In "_"%char (uuid k)) ->
  NoDup (map Pipeline.id (Pipeline.ingestDocuments splitText uuid docs)).
Proof.
  intros splitText uuid docs Hinj Hus; unfold Pipeline.ingestDocuments.
  apply ingestDocumentsFrom_nodup.
  - intros k1 k2 H1 H2; apply Hinj; lia.
  - intros k Hk; apply Hus; lia.
Qed.

Definition batchUuid (k : nat) : str := S_ "0-" ++ Server.num (Z.of_nat k).

Lemma Pipeline_ingestDocuments_unique_ids_witness :
  NoDup (map Pipeline.id (Pipeline.ingestDocuments pipelineSplitter batchUuid
           [(S_ "one two three four five", None); (S_ "six seven", None)])).
Proof.
  apply Pipeline_ingestDocuments_unique_ids.
  - intros k1 k2 H1 H2 E; unfold batchUuid in E.
    apply (app_inv_head (S_ "0-")), num_inj in E; lia.
  - intros k Hk; simpl in Hk.
    destruct k as [|[|k]]; [vm_compute; intuition discriminate | vm_compute; intuition discriminate | lia].
Defined.

Section QueryLemmas.
Import Server Query.

(** X22. The /query handler answers 400 to a request without a query and
    leaves the cache alone; with [useCache] falsy it neither reads nor
    writes the cache: the cache is unchanged and the outcome is the one of
    the same request on a server without a cache. *)
Theorem Query_bad_request_and_cache_bypass : forall cfg cache body tGet tSet,
  (query body = [] -> handleQuery cfg cache body tGet tSet = (BadRequest, cache)) /\
  (useCacheTruthy (useCache body) = false ->
     snd (handleQuery cfg cache body tGet tSet) = cache /\
     fst (handleQuery cfg cache body tGet tSet) = fst (handleQuery cfg None body tGet tSet)).
Proof.
  intros cfg cache body tGet tSet; split.
  - intros Hq; unfold handleQuery; rewrite Hq; reflexivity.
  - intros U; unfold handleQuery; rewrite U.
    destruct (nonempty (query body)); simpl; [|split; reflexivity].
    destruct cache as [m|]; simpl;
      (destruct (retrieve cfg (query body) (Server.topK (k body)) (filter body)) as [rs|];
       simpl; [|split; reflexivity]);
      (destruct (match reranker cfg with
                 | Some rr => if rerank body then rr (query body) rs else Some rs
                 | None => Some rs end); simpl; split; reflexivity).
Qed.

(** X23. Round trip through the cache: when a request with [useCache]
    truthy is answered from the retriever (200 without [cached]) and stored,
    a later request with [useCache] truthy, the same query and the same
    cache key (the same [k || 5] and filter; [rerank] may differ) made
    before the entry expires ([cacheTTL] absent or [0], or the read at most
    [cacheTTL * 1000] ms after the write) gets the same response with
    [cached: true], whatever the retriever and reranker then are, and leaves
    the cache as it was. *)
Theorem Query_cache_roundtrip : forall cfg m body tGet tSet resp m' cfg' body' tGet' tSet',
  useCacheTruthy (useCache body) = true ->
  handleQuery cfg (Some m) body tGet tSet = (Success resp false, Some m') ->
  useCacheTruthy (useCache body') = true ->
  query body' = query body ->
  cacheKey (query body') (k body') (filter body') = cacheKey (query body) (k body) (filter body) ->
  (forall t, cacheTTL cfg = Some t -> t <> 0 -> tGet' <= tSet + t * 1000) ->
  handleQuery cfg' (Some m') body' tGet' tSet' = (Success resp true, Some m').
Proof.
  intros cfg m body tGet tSet resp m' cfg' body' tGet' tSet' U H U' Hq Hk Httl.
  unfold handleQuery in H; rewrite U in H.
  destruct (nonempty (query body)) eqn:Q; simpl in H; [|discriminate].
  destruct (Cache.get QueryResponse m (cacheKey (query body) (k body) (filter body)) tGet)
    as [[c|] m1]; simpl in H; [discriminate|].
  destruct (retrieve cfg (query body) (Server.topK (k body)) (filter body)) as [rs|];
    simpl in H; [|discriminate].
  destruct (match reranker cfg with
            | Some rr => if rerank body then rr (query body) rs else Some rs
            | None => Some rs end) as [rs'|]; simpl in H; [|discriminate].
  injection H as Hr Hm; subst resp m'.
  unfold handleQuery; rewrite Hk, Hq, Q, U'; simpl.
  unfold Cache.get, Cache.set; rewrite map_get_set_same; simpl.
  destruct (cacheTTL cfg) as [t|]; simpl; [|reflexivity].
  destruct (Z.eqb_spec t 0) as [->|Ht]; simpl; [reflexivity|].
  specialize (Httl t eq_refl Ht).
  destruct (tSet + t * 1000 =? 0); simpl; [reflexivity|].
  replace (tSet + t * 1000 <? tGet') with false by (symmetry; apply Z.ltb_ge; lia).
  reflexivity.
Qed.

End QueryLemmas.

Definition queryCfg : Query.Config :=
  {| Query.retrieve := fun _ _ _ => Some rrf_input;
     Query.reranker := Some (fun _ rs => Some (rev rs));
     Query.cacheTTL := Some 60 |}.

Definition queryBody (q : string) (useC : option Server.json) (rr : bool) : Query.QueryBody :=
  {| Query.query := S_ q; Query.k := None; Query.rerank := rr; Query.filter := None;
     Query.useCache := useC |}.

Definition noResponse : Query.QueryResponse := {| Query.rquery := []; Query.rresults := [] |}.

Lemma Query_bad_request_and_cache_bypass_witness :
  Query.handleQuery queryCfg (Some []) (queryBody "" None false) 0 0 = (Query.BadRequest, Some []) /\
  snd (Query.handleQuery queryCfg (Some []) (queryBody "ml" (Some (Server.JBool false)) false) 0 0)
    = Some [].
Proof.
  split.
  - exact (proj1 (Query_bad_request_and_cache_bypass queryCfg (Some []) (queryBody "" None false) 0 0)
                 eq_refl).
  - exact (proj1 (proj2 (Query_bad_request_and_cache_bypass queryCfg (Some [])
                            (queryBody "ml" (Some (Server.JBool false)) false) 0 0) eq_refl)).
Defined.

Lemma Query_cache_roundtrip_witness :
  let r := Query.handleQuery queryCfg (Some []) (queryBody "ml" None false) 0 0 in
  let resp := match fst r with Query.Success b _ => b | _ => noResponse end in
  let m' := match snd r with Some m => m | None => [] end in
  r = (Query.Success resp false, Some m') /\
  Query.handleQuery {| Query.retrieve := fun _ _ _ => None; Query.reranker := None;
                       Query.cacheTTL := None |}
    (Some m') (queryBody "ml" (Some (Server.JBool true)) true) 60000 5
  = (Query.Success resp true, Some m').
Proof.
  intros r resp m'.
  assert (H : r = (Query.Success resp false, Some m')) by (vm_compute; reflexivity).
  split; [exact H|].
  refine (Query_cache_roundtrip queryCfg [] (queryBody "ml" None false) 0 0 resp m'
            {| Query.retrieve := fun _ _ _ => None; Query.reranker := None; Query.cacheTTL := None |}
            (queryBody "ml" (Some (Server.JBool true)) true) 60000 5
            eq_refl H eq_refl eq_refl eq_refl _).
  intros t Ht _; injection Ht as <-; lia.
Defined.

Lemma topK_nonzero : forall k, Server.topK k <> 0.
Proof. intros [n|]; unfold Server.topK; [destruct (Z.eqb_spec n 0); lia | lia]. Qed.

(** X24. [Retriever.retrieve] asks the vector store for its own default
    number of results exactly when [topK] is absent or [0]; the /query
    handler always passes [k || 5], never [0], so on a server built on a
    retriever the outcome and the cache afterwards do not depend on the
    retriever's default, and the vector store is asked for [k || 5]
    results with the request's filter. *)
Theorem Query_retriever_default_unused : forall search d1 d2 rr ttl cache body tGet tSet,
  (forall q f, Retriever.retrieve search d1 q None f = search q d1 f /\
               Retriever.retrieve search d1 q (Some 0) f = search q d1 f) /\
  (forall q k f, Query.retrieve (serverConfig search d1 rr ttl) q (Server.topK k) f =
                 search q (Server.topK k) f) /\
  Query.handleQuery (serverConfig search d1 rr ttl) cache body tGet tSet =
  Query.handleQuery (serverConfig search d2 rr ttl) cache body tGet tSet.
Proof.
  intros search d1 d2 rr ttl cache body tGet tSet.
  assert (R : forall d q k f, Query.retrieve (serverConfig search d rr ttl) q (Server.topK k) f =
                              search q (Server.topK k) f).
  { intros d q k f; cbn [serverConfig Query.retrieve]; unfold Retriever.retrieve.
    pose proof (topK_nonzero k) as Hk; apply Z.eqb_neq in Hk; rewrite Hk; reflexivity. }
  split; [intros q f; split; reflexivity|].
  split; [apply R|].
  unfold Query.handleQuery; rewrite !R; reflexivity.
Qed.
